(** * Stretchy paths: decomposition of the outline frame, sandwich projection
      and the re-arrangement protocol

    A shallow embedding of [src/paper/StretchyPath.ts] and
    [client/sketchEditor/workspace/PathSection.ts].

    Numbers are JavaScript doubles in the source; here coordinates and arc
    lengths are exact rationals ([Q]).  Objects with identity (the
    [paper.Segment]s of the outline) are references into a store, so that the
    [corners] array and the outline alias the same segments, as in the
    source.  What belongs to paper.js (tolerance test, bounds, arc-length
    sampling of a path) is a parameter of the development. *)

From Stdlib Require Import List Bool Arith Lia Permutation QArith Qminmax Qabs Lqa.
From Stdlib Require String.
Import ListNotations.

#[local] Open Scope nat_scope.

(* ================================================================== *)
(** * Points and rectangles (paper.Point, paper.Rectangle) *)
(* ================================================================== *)

Record Point : Type := mkPoint { px : Q; py : Q }.

(** Equality of points up to the equality of rationals. *)
Definition point_eq (p q : Point) : Prop :=
  (px p == px q)%Q /\ (py p == py q)%Q.

Infix "=p=" := point_eq (at level 70, no associativity).

Definition Point_add (p q : Point) : Point :=
  mkPoint (px p + px q)%Q (py p + py q)%Q.

Definition Point_subtract (p q : Point) : Point :=
  mkPoint (px p - px q)%Q (py p - py q)%Q.

Definition Point_multiply (p : Point) (k : Q) : Point :=
  mkPoint (px p * k)%Q (py p * k)%Q.

Definition origin : Point := mkPoint 0%Q 0%Q.

Record Rectangle : Type := mkRectangle {
  rect_x : Q;
  rect_y : Q;
  rect_width : Q;
  rect_height : Q
}.

Definition topLeft (r : Rectangle) : Point :=
  mkPoint (rect_x r) (rect_y r).
Definition topRight (r : Rectangle) : Point :=
  mkPoint (rect_x r + rect_width r)%Q (rect_y r).
Definition bottomRight (r : Rectangle) : Point :=
  mkPoint (rect_x r + rect_width r)%Q (rect_y r + rect_height r)%Q.
Definition bottomLeft (r : Rectangle) : Point :=
  mkPoint (rect_x r) (rect_y r + rect_height r)%Q.

(** Squared-distance form of [Point.isClose(point, tolerance)]: the distance
    is at most the tolerance.  It instantiates the tolerance test, which the
    development below takes as a parameter. *)
Definition Point_isClose (tolerance : Q) (p q : Point) : bool :=
  let dx := (px p - px q)%Q in
  let dy := (py p - py q)%Q in
  Qle_bool (dx * dx + dy * dy)%Q (tolerance * tolerance)%Q.

(** [paper.Numerical.EPSILON] *)
Definition EPSILON : Q := (1 # 1000000000000)%Q.

Definition isCloseEps : Point -> Point -> bool := Point_isClose EPSILON.

(* ================================================================== *)
(** * Curve-like objects ([paper.Curvelike]) *)
(* ================================================================== *)

(** The interface [paper.Curvelike]: a length and an arc-length sampler.
    [getPointAt] answers [None] where the JavaScript method answers [null]. *)
Record Curvelike : Type := mkCurvelike {
  curve_length : Q;
  getPointAt : Q -> option Point
}.

(** A curve-like object samples its whole extent: every arc length between
    0 and its length has a point. *)
Definition samples_extent (c : Curvelike) : Prop :=
  (0 <= curve_length c)%Q /\
  forall d, (0 <= d)%Q -> (d <= curve_length c)%Q ->
            exists p, getPointAt c d = Some p.

(** [p] is a point of the curve: it is the sample at some arc length of the
    curve's extent. *)
Definition on_curve (c : Curvelike) (p : Point) : Prop :=
  exists d q, (0 <= d)%Q /\ (d <= curve_length c)%Q /\
              getPointAt c d = Some q /\ p =p= q.

Module SketchEditor.

(** [class PathSection implements paper.Curvelike] *)
Record PathSection : Type := mkPathSection {
  path : Curvelike;
  offset : Q;
  length : Q
}.

(** [getPointAt(offset) { return this.path.getPointAt(offset + this.offset); }] *)
Definition PathSection_getPointAt (ps : PathSection) (d : Q) : option Point :=
  getPointAt (path ps) (d + offset ps)%Q.

Definition asCurvelike (ps : PathSection) : Curvelike :=
  mkCurvelike (length ps) (PathSection_getPointAt ps).

(** What the specification asks of the window: the query is clamped to
    the true length of the underlying curve. *)
Definition clamped_getPointAt (ps : PathSection) (d : Q) : option Point :=
  getPointAt (path ps) (Qmin (offset ps + d) (curve_length (path ps)))%Q.

End SketchEditor.

Module PaperHelpers.

(** [lerp(a, b, t)]: the point at parameter [t] on the straight line from
    [a] to [b]. *)
Definition lerp (a b : Point) (t : Q) : Point :=
  Point_add a (Point_multiply (Point_subtract b a) t).

(** Modelled from the spec: [PaperHelpers.sandwichPathProjection] is not
    among the sources.  Section 4.3:
    [project(u, v) = lerp(topCurve.pointAt(u * topLength),
                          bottomCurve.pointAt(u * bottomLength), v)].
    The unit point carries [u] in its x and [v] in its y coordinate; the
    result is undefined when one of the two samples is. *)
Definition sandwichPathProjection (top bottom : Curvelike)
    (unitPoint : Point) : option Point :=
  match getPointAt top (px unitPoint * curve_length top)%Q,
        getPointAt bottom (px unitPoint * curve_length bottom)%Q with
  | Some topPoint, Some bottomPoint =>
      Some (lerp topPoint bottomPoint (py unitPoint))
  | _, _ => None
  end.

(** Modelled from the spec: [PaperHelpers.corners] is not among the
    sources.  Section 3: the outline frame starts as the axis-aligned
    bounding rectangle of the source artwork, 4 corners and no extra
    points; sides are ordered top, right, bottom, left. *)
Definition corners (r : Rectangle) : list Point :=
  [topLeft r; topRight r; bottomRight r; bottomLeft r].

End PaperHelpers.

(** A straight horizontal stroke from (0,y) to (len,y), sampled the way
    paper.js samples a path of one curve: a distance from 0 to the length
    is measured from the start, a negative one back from the end, and there
    is no point further away than the length. *)
Definition horizontalStroke (y len : Q) : Curvelike :=
  mkCurvelike len
    (fun d => let x := if Qle_bool 0 d then d else (len + d)%Q in
              if Qle_bool 0 x && Qle_bool x len
              then Some (mkPoint x y) else None).


(* ================================================================== *)
(** * Paths, segment objects and the collaborators of StretchyPath *)
(* ================================================================== *)

(** The content of a [paper.Segment]: anchor point and the two handles. *)
Record Segment : Type := mkSegment {
  point : Point;
  handleIn : Point;
  handleOut : Point
}.

(** A [paper.Path] by value, and a [paper.CompoundPath] as its children. *)
Record PathItem : Type := mkPathItem {
  segments : list Segment;
  closed : bool
}.

Definition CompoundPath : Type := list PathItem.

(** Segment objects of the outline have identity: [corners] and
    [outline.segments] hold the same objects, and the source compares them
    with [===].  A reference names the object, the store holds its content. *)
Definition SegRef : Type := nat.

Definition Store : Type := SegRef -> Segment.

Definition store_set (st : Store) (r : SegRef) (v : Segment) : Store :=
  fun r' => if r' =? r then v else st r'.

(** [paper.Curve] of the outline: its [segment1] and [segment2]. *)
Definition Curve : Type := (SegRef * SegRef)%type.

Definition segment1 (c : Curve) : SegRef := fst c.
Definition segment2 (c : Curve) : SegRef := snd c.

Definition Curve_eqb (c d : Curve) : bool :=
  (fst c =? fst d) && (snd c =? snd d).

(** What StretchyPath calls but does not define.
    - [isClose] is [targetCorner.isClose(segment.point, paper.Numerical.EPSILON)];
    - [bounds] is [item.bounds] of paper.js;
    - [pathCurve] is the length and arc-length sampler of a [paper.Path]
      built from the given segments;
    - [transformPathItem f path] is [new PathTransform(f).transformPathItem(path)]
      ([PathTransform] is not among the sources); [None] when the point
      mapping throws. *)
Class Engine : Type := mkEngine {
  isClose : Point -> Point -> bool;
  bounds : CompoundPath -> Rectangle;
  pathCurve : list Segment -> Curvelike;
  transformPathItem :
    (Point -> option Point) -> CompoundPath -> option CompoundPath
}.

(** [class StretchyPath extends paper.Group].  [handles] are the
    [SegmentHandle]s that [onDragEnd] adds as direct children; [store] and
    [nextRef] are the heap of segment objects. *)
Record StretchyPath : Type := mkStretchyPath {
  sourcePath : CompoundPath;
  displayPath : option CompoundPath;
  corners : list SegRef;
  outline : list SegRef;
  midpointGroup : list Curve;
  segmentGroup : list SegRef;
  handles : list SegRef;
  store : Store;
  nextRef : SegRef
}.

(** How a call ends: normally, or with something thrown.
    [FailedToGetSides] is [throw 'failed to get sides'], [TypeError] is a
    method call or property read on [undefined], [ProjectionFailed] is an
    exception out of the point mapping run by [PathTransform]. *)
Inductive Thrown : Type :=
| FailedToGetSides
| TypeError
| ProjectionFailed.

Inductive Completion (A : Type) : Type :=
| Normal (a : A)
| Throw (e : Thrown).

Arguments Normal {A} a.
Arguments Throw {A} e.

Definition Side : Type := list SegRef.

(* ================================================================== *)
(** * getOutlineSides *)
(* ================================================================== *)

(** [Array.prototype.shift] on a queue whose entries may be [undefined]:
    the first entry and the rest, [undefined] from an empty array. *)
Definition shift {A : Type} (q : list (option A)) : option A * list (option A) :=
  match q with
  | [] => (None, [])
  | a :: q' => (a, q')
  end.

(** The loop [for (let segment of segmentList)] of [getOutlineSides], with
    its four mutable variables as arguments.  [sides] collects the segment
    groups handed to [new paper.Path(segmentGroup)]. *)
Fixpoint walk {E : Engine} (st : Store)
    (targetCorner : option Point) (cornerPoints : list (option Point))
    (segmentGroup : Side) (sides : list Side)
    (segmentList : list SegRef) : Completion (list Side) :=
  match segmentList with
  | [] => Normal sides
  | segment :: rest =>
      let segmentGroup := segmentGroup ++ [segment] in
      match targetCorner with
      | None => Throw TypeError
      | Some target =>
          if isClose target (point (st segment)) then
            let '(next, cornerPoints') := shift cornerPoints in
            walk st next cornerPoints' [segment] (sides ++ [segmentGroup]) rest
          else
            walk st targetCorner cornerPoints segmentGroup sides rest
      end
  end.

(** The target corner and the queue behind it when the loop starts:
    [cornerPoints = corners.map(c => c.point)], first entry moved to the
    back, then the next entry taken as target. *)
Definition initialTargets (s : StretchyPath)
    : option Point * list (option Point) :=
  let cornerPoints := map (fun c => Some (point (store s c))) (corners s) in
  let '(first, cornerPoints) := shift cornerPoints in
  let cornerPoints := cornerPoints ++ [first] in
  shift cornerPoints.

(** [segmentList]: the outline's segments followed by the first one again.
    On an outline without segments the list holds one [undefined], on which
    the loop body fails ([None] here). *)
Definition segmentList (s : StretchyPath) : option (list SegRef) :=
  match outline s with
  | [] => None
  | s0 :: _ => Some (outline s ++ [s0])
  end.

(** The loop of [getOutlineSides] run on the state. *)
Definition walkOutline {E : Engine} (s : StretchyPath) : Completion (list Side) :=
  match segmentList s with
  | None => Throw TypeError
  | Some l =>
      let '(targetCorner, cornerPoints) := initialTargets s in
      walk (store s) targetCorner cornerPoints [] [] l
  end.

(** [getOutlineSides()]: the loop, then the check of the side count.  The
    [console.error] before the [throw] is not recorded. *)
Definition getOutlineSides {E : Engine} (s : StretchyPath)
    : Completion (list Side) :=
  match walkOutline s with
  | Throw e => Throw e
  | Normal sides =>
      if Nat.eqb (List.length sides) 4 then Normal sides
      else Throw FailedToGetSides
  end.

(* ================================================================== *)
(** * arrangePath, arrangeContents and the construction *)
(* ================================================================== *)

(** [new paper.Path(segmentGroup)]: the path gets copies of the segments. *)
Definition sidePath (st : Store) (side : Side) : list Segment :=
  map st side.

(** [path.reverse()]: segments in reverse order, handles exchanged. *)
Definition Path_reverse (segs : list Segment) : list Segment :=
  rev (map (fun sg => mkSegment (point sg) (handleOut sg) (handleIn sg)) segs).

(** The projection of [arrangePath]: [top = sides[0]],
    [bottom = sides[2]] reversed. *)
Definition arrangeProjection {E : Engine} (st : Store) (sides : list Side)
    : Point -> option Point :=
  let top := sidePath st (nth 0 sides []) in
  let bottom := Path_reverse (sidePath st (nth 2 sides [])) in
  PaperHelpers.sandwichPathProjection (pathCurve top) (pathCurve bottom).

(** The point mapping passed to [PathTransform].  Coordinates are exact
    rationals: where the bounds of the source have width or height 0 the
    code divides doubles by zero and goes on with NaN or an infinity, which
    have no counterpart here (the quotient below is then 0).  What is
    proved about the values of this mapping assumes both extents non-zero. *)
Definition arrangeTransform {E : Engine} (s : StretchyPath) (sides : list Side)
    (pt : Point) : option Point :=
  let orthOrigin := topLeft (bounds (sourcePath s)) in
  let orthWidth := rect_width (bounds (sourcePath s)) in
  let orthHeight := rect_height (bounds (sourcePath s)) in
  let relative := Point_subtract pt orthOrigin in
  let unit := mkPoint (px relative / orthWidth)%Q (py relative / orthHeight)%Q in
  arrangeProjection (store s) sides unit.

Definition set_displayPath (s : StretchyPath) (d : option CompoundPath)
    : StretchyPath :=
  mkStretchyPath (sourcePath s) d (corners s) (outline s) (midpointGroup s)
    (segmentGroup s) (handles s) (store s) (nextRef s).

(** [arrangePath()].  The decomposition comes first; the sides are used for
    the projection and removed again; a clone of [sourcePath] is transformed
    and becomes [displayPath].  Fill colour, visibility and the position of
    the new path among the children of the group are not recorded. *)
Definition arrangePath {E : Engine} (s : StretchyPath)
    : StretchyPath * Completion unit :=
  match getOutlineSides s with
  | Throw e => (s, Throw e)
  | Normal sides =>
      let newPath := sourcePath s in
      match transformPathItem (arrangeTransform s sides) newPath with
      | None => (s, Throw ProjectionFailed)
      | Some newPath' => (set_displayPath s (Some newPath'), Normal tt)
      end
  end.

(** The curves of a closed path: one from each segment to the next, the
    last one back to the first. *)
Definition closedCurves (segs : list SegRef) : list Curve :=
  match segs with
  | [] => []
  | s0 :: rest => combine segs (rest ++ [s0])
  end.

(** The curves of an open path. *)
Definition openCurves (segs : list SegRef) : list Curve :=
  combine segs (tl segs).

(** [x === this.corners[i]]; false when [corners[i]] is [undefined]. *)
Definition isCorner (crns : list SegRef) (i : nat) (x : SegRef) : bool :=
  match nth_error crns i with
  | Some c => x =? c
  | None => false
  end.

(** The test of [updateMidpiontMarkers] that skips a curve. *)
Definition skipsCurve (crns : list SegRef) (curve : Curve) : bool :=
  isCorner crns 1 (segment1 curve) || isCorner crns 3 (segment1 curve).

Definition set_midpointGroup (s : StretchyPath) (g : list Curve)
    : StretchyPath :=
  mkStretchyPath (sourcePath s) (displayPath s) (corners s) (outline s) g
    (segmentGroup s) (handles s) (store s) (nextRef s).

(** The group is rebuilt with one [CurveSplitterHandle] per curve kept. *)
Definition updateMidpiontMarkers (s : StretchyPath) : StretchyPath :=
  set_midpointGroup s
    (filter (fun curve => negb (skipsCurve (corners s) curve))
            (closedCurves (outline s))).

Definition arrangeContents {E : Engine} (s : StretchyPath)
    : StretchyPath * Completion unit :=
  arrangePath (updateMidpiontMarkers s).

(** [new paper.Path(points)]: a fresh segment object per point. *)
Fixpoint allocSegments (st : Store) (next : SegRef) (pts : list Point)
    : list SegRef * Store * SegRef :=
  match pts with
  | [] => ([], st, next)
  | p :: pts' =>
      let '(refs, st', next') :=
        allocSegments (store_set st next (mkSegment p origin origin))
                      (S next) pts' in
      (next :: refs, st', next')
  end.

Definition createOutline {E : Engine} (s : StretchyPath) : StretchyPath :=
  let '(refs, st, next) :=
    allocSegments (store s) (nextRef s)
                  (PaperHelpers.corners (bounds (sourcePath s))) in
  mkStretchyPath (sourcePath s) (displayPath s)
    refs (* corners = outline.segments.map(s => s) *)
    refs (* outline *)
    (midpointGroup s) (segmentGroup s) (handles s) st next.

Definition createSegmentMarkers (s : StretchyPath) : StretchyPath :=
  mkStretchyPath (sourcePath s) (displayPath s) (corners s) (outline s)
    (midpointGroup s) (outline s) (handles s) (store s) (nextRef s).

(** The fields of a StretchyPath when its constructor body starts. *)
Definition blank (src : CompoundPath) : StretchyPath :=
  mkStretchyPath src None [] [] [] [] []
    (fun _ => mkSegment origin origin origin) 0.

(** [new StretchyPath(sourcePath)]: the state the constructor leaves and
    how its [arrangeContents()] call ended. *)
Definition construct {E : Engine} (src : CompoundPath)
    : StretchyPath * Completion unit :=
  arrangeContents
    (updateMidpiontMarkers (createSegmentMarkers (createOutline (blank src)))).

(* ================================================================== *)
(** * Edits: handle drags and their callbacks *)
(* ================================================================== *)

(** Modelled from the spec: [SegmentHandle] is not among the sources.
    Sections 4.5 and 6: a corner or control-point edit gives the dragged
    frame vertex its new position; the handle then calls
    [onChangeComplete].  The handle is built from the segment alone
    ([new SegmentHandle(segment)]) and its callback takes no argument and
    returns nothing: the change is made when StretchyPath gets to see it. *)
Definition SegmentHandle_drag (s : StretchyPath) (r : SegRef) (p : Point)
    : StretchyPath :=
  mkStretchyPath (sourcePath s) (displayPath s) (corners s) (outline s)
    (midpointGroup s) (segmentGroup s) (handles s)
    (store_set (store s) r
       (mkSegment p (handleIn (store s r)) (handleOut (store s r))))
    (nextRef s).

(** [x] put behind the first occurrence of [r]. *)
Fixpoint insertAfter (r x : SegRef) (l : list SegRef) : list SegRef :=
  match l with
  | [] => []
  | y :: l' => if y =? r then y :: x :: l' else y :: insertAfter r x l'
  end.

(** Modelled from the spec: [CurveSplitterHandle] is not among the sources.
    Section 4.5: a midpoint insertion splits a boundary curve at a point and
    inserts a new vertex into the outline frame at the split location; the
    handle then calls [onDragEnd] with the new segment. *)
Definition CurveSplitterHandle_divide (s : StretchyPath) (curve : Curve)
    (p : Point) : StretchyPath * SegRef :=
  let newSegment := nextRef s in
  (mkStretchyPath (sourcePath s) (displayPath s) (corners s)
     (insertAfter (segment1 curve) newSegment (outline s))
     (midpointGroup s) (segmentGroup s) (handles s)
     (store_set (store s) newSegment (mkSegment p origin origin))
     (S (nextRef s)),
   newSegment).

(** [handle.onChangeComplete = () => this.arrangeContents()] *)
Definition onChangeComplete {E : Engine} (s : StretchyPath)
    : StretchyPath * Completion unit :=
  arrangeContents s.

(** [handle.onDragEnd = (newSegment, event) => { ... }] of the
    [CurveSplitterHandle] made for [curve]: a [SegmentHandle] for the new
    segment becomes a child, the splitter handle is removed, the contents
    are arranged. *)
Definition onDragEnd {E : Engine} (s : StretchyPath) (curve : Curve)
    (newSegment : SegRef) : StretchyPath * Completion unit :=
  arrangeContents
    (mkStretchyPath (sourcePath s) (displayPath s) (corners s) (outline s)
       (filter (fun c => negb (Curve_eqb c curve)) (midpointGroup s))
       (segmentGroup s) (handles s ++ [newSegment]) (store s) (nextRef s)).

(** The two edits a user can make on the frame. *)
Inductive Edit : Type :=
| CornerMoved (r : SegRef) (newPoint : Point)
| MidpointInserted (curve : Curve) (splitPoint : Point).

(** The frame as the handle leaves it, before any callback of StretchyPath
    runs.  An edit is possible only through a handle that exists. *)
Definition applyEdit (s : StretchyPath) (e : Edit) : option StretchyPath :=
  match e with
  | CornerMoved r p =>
      if existsb (Nat.eqb r) (segmentGroup s ++ handles s)
      then Some (SegmentHandle_drag s r p) else None
  | MidpointInserted curve p =>
      if existsb (Curve_eqb curve) (midpointGroup s)
      then Some (fst (CurveSplitterHandle_divide s curve p)) else None
  end.

(** An edit with the callback it triggers. *)
Definition edit {E : Engine} (s : StretchyPath) (e : Edit)
    : StretchyPath * Completion unit :=
  match e with
  | CornerMoved r p =>
      if existsb (Nat.eqb r) (segmentGroup s ++ handles s)
      then onChangeComplete (SegmentHandle_drag s r p)
      else (s, Normal tt)
  | MidpointInserted curve p =>
      if existsb (Curve_eqb curve) (midpointGroup s)
      then let '(s', newSegment) := CurveSplitterHandle_divide s curve p in
           onDragEnd s' curve newSegment
      else (s, Normal tt)
  end.

(** A sequence of edits; an exception ends the callback it came from, the
    object stays and takes the next edit. *)
Definition edits {E : Engine} (s : StretchyPath) (es : list Edit)
    : StretchyPath :=
  fold_left (fun s e => fst (edit s e)) es s.

(** The position of every vertex of the frame, in contour order. *)
Definition framePoints (s : StretchyPath) : list Point :=
  map (fun r => point (store s r)) (outline s).

Definition cornerPoints (s : StretchyPath) : list Point :=
  map (fun r => point (store s r)) (corners s).

(** Two of the given points are within tolerance of each other. *)
Fixpoint someClose {E : Engine} (pts : list Point) : bool :=
  match pts with
  | [] => false
  | p :: rest => existsb (isClose p) rest || someClose rest
  end.

(** The frame vertices that are not corners. *)
Definition intermediate (s : StretchyPath) : list SegRef :=
  filter (fun r => negb (existsb (Nat.eqb r) (corners s))) (outline s).

(* ================================================================== *)
(** * A concrete engine *)
(* ================================================================== *)

Definition anchors (cp : CompoundPath) : list Point :=
  flat_map (fun item => map point (segments item)) cp.

(** Bounding box of the anchor points (the bounds of a path with straight
    edges). *)
Definition anchorBounds (cp : CompoundPath) : Rectangle :=
  match anchors cp with
  | [] => mkRectangle 0 0 0 0
  | p :: ps =>
      let xmin := fold_left (fun m q => Qmin m (px q)) ps (px p) in
      let xmax := fold_left (fun m q => Qmax m (px q)) ps (px p) in
      let ymin := fold_left (fun m q => Qmin m (py q)) ps (py p) in
      let ymax := fold_left (fun m q => Qmax m (py q)) ps (py p) in
      mkRectangle xmin ymin (xmax - xmin)%Q (ymax - ymin)%Q
  end.

Definition edgeLength (a b : Point) : Q :=
  (Qabs (px b - px a) + Qabs (py b - py a))%Q.

Fixpoint polylineLength (pts : list Point) : Q :=
  match pts with
  | [] => 0%Q
  | a :: rest =>
      match rest with
      | [] => 0%Q
      | b :: _ => (edgeLength a b + polylineLength rest)%Q
      end
  end.

(** The point at distance [d >= 0] along the edges.  A path with fewer
    than two anchors has no curve and no point at any distance, and there
    is no point past the last anchor. *)
Fixpoint polylinePointAt (pts : list Point) (d : Q) : option Point :=
  match pts with
  | [] => None
  | a :: rest =>
      match rest with
      | [] => None
      | b :: _ =>
          if Qle_bool d (edgeLength a b)
          then Some (PaperHelpers.lerp a b (d / edgeLength a b)%Q)
          else polylinePointAt rest (d - edgeLength a b)%Q
      end
  end.

(** A negative distance is measured back from the end of the first curve,
    and has no point further away than that curve is long. *)
Definition polylinePointBack (pts : list Point) (d : Q) : option Point :=
  match pts with
  | a :: b :: _ =>
      if Qle_bool (- edgeLength a b) d
      then Some (PaperHelpers.lerp a b
                   ((edgeLength a b + d) / edgeLength a b)%Q)
      else None
  | _ => None
  end.

(** Arc-length sampling of an open path with straight edges parallel to
    the axes, where the length of an edge is the sum of its extents.  On
    an edge that is not parallel to an axis this sum is not the length
    paper.js measures; the frames sampled below have their top and bottom
    sides parallel to the axes. *)
Definition polylineCurve (segs : list Segment) : Curvelike :=
  mkCurvelike (polylineLength (map point segs))
    (fun d => if Qle_bool 0 d then polylinePointAt (map point segs) d
              else polylinePointBack (map point segs) d).

Fixpoint mapM {A B : Type} (f : A -> option B) (l : list A) : option (list B) :=
  match l with
  | [] => Some []
  | a :: l' =>
      match f a, mapM f l' with
      | Some b, Some bs => Some (b :: bs)
      | _, _ => None
      end
  end.

(** A transform that maps every anchor point and keeps the handles. *)
Definition anchorTransform (f : Point -> option Point) (cp : CompoundPath)
    : option CompoundPath :=
  mapM (fun item =>
          match mapM (fun sg =>
                        match f (point sg) with
                        | Some q => Some (mkSegment q (handleIn sg) (handleOut sg))
                        | None => None
                        end) (segments item) with
          | Some segs => Some (mkPathItem segs (closed item))
          | None => None
          end) cp.

Definition polylineEngine : Engine :=
  mkEngine isCloseEps anchorBounds polylineCurve anchorTransform.

Definition straight (x y : Q) : Segment :=
  mkSegment (mkPoint x y) origin origin.

(** The square contour (0,0), (10,0), (10,10), (0,10). *)
Definition squareArt : CompoundPath :=
  [mkPathItem [straight 0 0; straight 10 0; straight 10 10; straight 0 10] true].

(** Artwork without extent: a single anchor. *)
Definition dotArt : CompoundPath :=
  [mkPathItem [straight 3 4] true].

Definition squareStretchy : StretchyPath := fst (@construct polylineEngine squareArt).

(** The square frame after its first corner was replaced by a segment that
    is not tracked in [corners]: the walk meets only three of the corners. *)
Definition corruptedStretchy : StretchyPath :=
  mkStretchyPath squareArt (Some squareArt)
    [7; 1; 2; 3] [0; 1; 2; 3] [] [0; 1; 2; 3] []
    (store_set (store squareStretchy) 7 (straight (-5) (-5))) 8.

(** The square StretchyPath with the segment of corner 2 on the point of
    corner 0, so that the corners lie on three distinct points: the frame
    that [onChangeComplete] finds after corner 2 was dragged there. *)
Definition foldedStretchy : StretchyPath :=
  mkStretchyPath squareArt (displayPath squareStretchy)
    [0; 1; 2; 3] [0; 1; 2; 3] (midpointGroup squareStretchy) [0; 1; 2; 3] []
    (store_set (store squareStretchy) 2 (straight 0 0)) 4.

(** [foldedStretchy] after its arrangement pass, with a new segment 4 at
    (0,5) in the outline behind segment 2: the frame that [onDragEnd] finds
    after the curve from corner 2 to corner 3 was split there. *)
Definition foldedSplitStretchy : StretchyPath :=
  let s := fst (@onChangeComplete polylineEngine foldedStretchy) in
  mkStretchyPath (sourcePath s) (displayPath s) (corners s)
    [0; 1; 2; 4; 3] (midpointGroup s) (segmentGroup s) (handles s)
    (store_set (store s) 4 (straight 0 5)) 5.

(* ================================================================== *)
(** * Predicates on frames and sides *)
(* ================================================================== *)

(** No segment of [l] is within tolerance of [p]. *)
Definition far {E : Engine} (st : Store) (p : Point) (l : list SegRef) : bool :=
  forallb (fun r => negb (isClose p (point (st r)))) l.

(** Each side after the first starts with the segment that ends the side
    before it. *)
Inductive Overlapping : list Side -> Prop :=
| Overlapping_nil : Overlapping []
| Overlapping_one (a : Side) : Overlapping [a]
| Overlapping_cons (x : SegRef) (pre post : Side) (rest : list Side) :
    Overlapping ((x :: post) :: rest) ->
    Overlapping ((pre ++ [x]) :: (x :: post) :: rest).

(** The open segment group starts with the segment that closed the last
    side. *)
Definition continues (sides : list Side) (group : Side) : Prop :=
  sides = [] \/
  exists front pre x post,
    sides = front ++ [pre ++ [x]] /\ group = x :: post.

(** The curves that [updateMidpiontMarkers] gives a splitter handle. *)
Definition splittable (crns outl : list SegRef) : list Curve :=
  filter (fun curve => negb (skipsCurve crns curve)) (closedCurves outl).

(** The shape of the frame of a StretchyPath made by [construct]: the four
    corner segments are the first four objects allocated, the outline runs
    from corner 0 over the vertices [tm] to corner 1, directly to corner 2,
    over the vertices [bm] to corner 3, and closes directly on corner 0. *)
Definition frameShape (s : StretchyPath) (tm bm : list SegRef) : Prop :=
  corners s = [0; 1; 2; 3] /\
  outline s = 0 :: tm ++ 1 :: 2 :: bm ++ [3] /\
  (forall r, In r (tm ++ bm) -> 4 <= r < nextRef s) /\
  4 <= nextRef s /\
  NoDup (tm ++ bm) /\
  midpointGroup s = splittable (corners s) (outline s).

(* ================================================================== *)
(** * The state of the decomposition loop *)
(* ================================================================== *)

(** The corners the loop awaits, in order: the first target and the queue
    behind it.  Past the end of this list a target is [undefined]. *)
Definition awaitedTargets (s : StretchyPath) : list (option Point) :=
  fst (initialTargets s) :: snd (initialTargets s).

(** The segments of side [k] that were tested against the corner the side
    was closed on without matching it: all but the closing segment and, on
    the sides after the first, all but the segment carried over from the
    side before. *)
Definition passedOver (k : nat) (side : Side) : list SegRef :=
  if k =? 0 then removelast side else tl (removelast side).

(** What holds of the variables of the loop each time its body starts, for
    the targets [targets] and the segment list [full] the loop was started
    on: [l] is what is left of the list. *)
Definition WalkInv {E : Engine} (st : Store)
    (targets : list (option Point)) (full : list SegRef)
    (t : option Point) (q : list (option Point))
    (g : Side) (sides : list Side) (l : list SegRef) : Prop :=
  concat (map (@removelast SegRef) sides) ++ g ++ l = full /\
  t = nth (List.length sides) targets None /\
  q = skipn (S (List.length sides)) targets /\
  (forall k side, nth_error sides k = Some side ->
     exists p x, nth_error targets k = Some (Some p) /\
                 side = removelast side ++ [x] /\
                 isClose p (point (st x)) = true /\
                 far st p (passedOver k side) = true) /\
  (forall p, t = Some p ->
     far st p (if List.length sides =? 0 then g else tl g) = true) /\
  continues sides g /\
  (forall side, nth_error sides 0 = Some side ->
     exists rest, full = side ++ rest) /\
  (t = None -> sides = [] \/ exists x, g = [x]).

(** The square StretchyPath after a midpoint was inserted on its top side,
    dragged along the side, and another one inserted on its bottom side. *)
Definition midpointStretchy : StretchyPath :=
  @edits polylineEngine squareStretchy
    [MidpointInserted (0, 1) (mkPoint 5 0);
     CornerMoved 4 (mkPoint 6 0);
     MidpointInserted (2, 3) (mkPoint 5 10)].

(** The StretchyPath that the constructor leaves behind on artwork without
    extent. *)
Definition dotStretchy : StretchyPath := fst (@construct polylineEngine dotArt).

(** Every vertex of the frame has exactly one [SegmentHandle]: those made
    by [createSegmentMarkers] and those made by [onDragEnd]. *)
Definition everyVertexHandled (s : StretchyPath) : Prop :=
  (forall r, In r (outline s) <-> In r (segmentGroup s ++ handles s)) /\
  NoDup (segmentGroup s ++ handles s).

(** The curve gives its first point at arc length 0 and its last point at
    its full length. *)
Definition pinsEnds (c : Curvelike) (first last : Point) : Prop :=
  (forall d, (d == 0)%Q ->
             exists p, getPointAt c d = Some p /\ p =p= first) /\
  (forall d, (d == curve_length c)%Q ->
             exists p, getPointAt c d = Some p /\ p =p= last).

(** The curve runs straight in the direction of x from [a], over the
    length [len]. *)
Definition samplesStraight (c : Curvelike) (a : Point) (len : Q) : Prop :=
  (curve_length c == len)%Q /\
  forall d, (0 <= d)%Q -> (d <= len)%Q ->
            exists p, getPointAt c d = Some p /\
                      p =p= mkPoint (px a + d)%Q (py a).

(** The square StretchyPath after its corner at (10,10) was dragged to
    (20,10). *)
Definition draggedStretchy : StretchyPath :=
  fst (@edit polylineEngine squareStretchy (CornerMoved 2 (mkPoint 20 10))).

(* ================================================================== *)
(** * The Store: selection, editing item and text blocks
      ([client/_common/Store.ts]) *)
(* ================================================================== *)

Module Store.

Import String.

(** [WorkspaceObjectRef] / [PositionedObjectRef], as far as the Store reads
    them. *)
Record ObjectRef : Type := mkObjectRef {
  itemId : string;
  itemType : option string
}.

(** A [TextBlock] of the sketch: its id and the attributes the Store
    copies around. *)
Record TextBlock : Type := mkTextBlock {
  _id : string;
  text : option string;
  textColor : option string;
  backgroundColor : option string
}.

(** The part of [this.state] the functions below read and write;
    [textBlocks] is [state.sketch.textBlocks]. *)
Record AppState : Type := mkAppState {
  selection : option ObjectRef;
  editingItem : option ObjectRef;
  textBlocks : list TextBlock
}.

(** The events the functions below dispatch, in the order dispatched.
    [ContentChanged] stands for [changedSketch()]. *)
Inductive Event : Type :=
| SelectionChanged (item : option ObjectRef)
| EditingItemChanged (item : option ObjectRef)
| EditorClosed (block : TextBlock)
| TextBlockRemoved (id : string)
| ContentChanged.

(** [_.find(this.state.sketch.textBlocks, tb => tb._id === id)] *)
Definition getBlock (st : AppState) (id : string) : option TextBlock :=
  List.find (fun tb => String.eqb (_id tb) id) (textBlocks st).

Definition setSelection (st : AppState) (item : option ObjectRef)
    : AppState * list Event :=
  let change :=
    (mkAppState item (editingItem st) (textBlocks st),
     [SelectionChanged item]) in
  match item with
  | Some it =>
      match selection st with
      | Some current =>
          if String.eqb (itemId current) (itemId it) then (st, []) else change
      | None => change
      end
  | None =>
      match selection st with
      | None => (st, [])
      | Some _ => change
      end
  end.

Definition setEditingItem (st : AppState) (item : option ObjectRef)
    : AppState * list Event :=
  let proceed :=
    let closed :=
      match editingItem st with
      | Some current =>
          match itemType current with
          | Some type =>
              if String.eqb type "TextBlock" then
                match getBlock st (itemId current) with
                | Some currentEditingBlock => [EditorClosed currentEditingBlock]
                | None => []
                end
              else []
          | None => []
          end
      | None => []
      end in
    let '(st1, selected) :=
      match item with
      | Some _ => setSelection st item
      | None => (st, [])
      end in
    (mkAppState (selection st1) item (textBlocks st1),
     closed ++ selected ++ [EditingItemChanged item]) in
  match item with
  | Some it =>
      match editingItem st with
      | Some current =>
          if String.eqb (itemId current) (itemId it) then (st, []) else proceed
      | None => proceed
      end
  | None =>
      match editingItem st with
      | None => (st, [])
      | Some _ => proceed
      end
  end.


(** The subscriber of [actions.textBlock.remove], for [ev.data._id = id]:
    [_.remove] takes out every block the predicate accepts. *)
Definition onTextBlockRemove (st : AppState) (id : string)
    : AppState * list Event :=
  let didDelete := List.existsb (fun tb => String.eqb (_id tb) id) (textBlocks st) in
  let st1 :=
    mkAppState (selection st) (editingItem st)
      (List.filter (fun tb => negb (String.eqb (_id tb) id)) (textBlocks st)) in
  if didDelete then
    let '(st2, e2) := setEditingItem st1 None in
    (st2, [TextBlockRemoved id; ContentChanged] ++ e2)
  else (st1, []).

(** The stored reference names the item asked for. *)
Definition refersTo (stored item : option ObjectRef) : Prop :=
  match stored, item with
  | None, None => True
  | Some a, Some b => itemId a = itemId b
  | _, _ => False
  end.

Definition block (id : string) : TextBlock := mkTextBlock id None None None.

Definition textBlockRef (id : string) : ObjectRef :=
  mkObjectRef id (Some "TextBlock"%string).

(** A sketch of three blocks, the second one being edited. *)
Definition editingState : AppState :=
  mkAppState (Some (textBlockRef "b")) (Some (textBlockRef "b"))
    [block "a"; block "b"; block "c"]%string.

End Store.

(* ================================================================== *)
(** * Typed channels ([packages/fstx-common/src/TypedChannel.ts]) *)
(* ================================================================== *)

Module TypedChannel.

Import String.

(** [interface Message<TData>]: [data] is optional. *)
Record Message (TData : Type) : Type := mkMessage {
  type : string;
  data : option TData
}.

Arguments mkMessage {TData} type data.
Arguments type {TData} m.
Arguments data {TData} m.

(** A subject is named by a number; what was sent on the subjects so far
    is the list of messages with the subject each went to, oldest first.
    An observable is read as the list of messages it has delivered to an
    observer subscribed from the start. *)
Definition Subject : Type := nat.

Definition Sent (TData : Type) : Type := list (Subject * Message TData).

(** [class ChannelTopic<TData>] *)
Record ChannelTopic : Type := mkChannelTopic {
  topicType : string;
  channel : Subject
}.

(** [class Channel]; [channelType] is [undefined] when the constructor got
    no type. *)
Record Channel : Type := mkChannel {
  channelType : option string;
  subject : Subject
}.

(** A string in a condition: [undefined] and [''] count as false. *)
Definition truthy (s : option string) : bool :=
  match s with
  | Some t => negb (String.eqb t "")
  | None => false
  end.

(** [topic(type)]: [this.type ? this.type + '.' + type : type] *)
Definition topic (c : Channel) (name : string) : ChannelTopic :=
  mkChannelTopic
    (match channelType c with
     | Some t => if truthy (Some t) then t ++ "." ++ name else name
     | None => name
     end)%string
    (subject c).

(** [dispatch(data)]: [this.channel.next({ type: this.type, data: data })] *)
Definition dispatch {TData : Type} (t : ChannelTopic) (d : option TData)
    (sent : Sent TData) : Sent TData :=
  sent ++ [(channel t, mkMessage (topicType t) d)].

(** What a subject has delivered. *)
Definition delivered {TData : Type} (s : Subject) (sent : Sent TData)
    : list (Message TData) :=
  List.map snd (List.filter (fun sm => Nat.eqb (fst sm) s) sent).

(** [observe()] of a topic: [this.channel.pipe(filter(m => m.type === this.type))] *)
Definition observe {TData : Type} (t : ChannelTopic) (sent : Sent TData)
    : list (Message TData) :=
  List.filter (fun m => String.eqb (type m) (topicType t))
    (delivered (channel t) sent).

(** [merge(...topics)]:
    [this.subject.pipe(filter(m => types.indexOf(m.type) >= 0))] *)
Definition merge {TData : Type} (c : Channel) (topics : list ChannelTopic)
    (sent : Sent TData) : list (Message TData) :=
  let types := List.map topicType topics in
  List.filter (fun m => List.existsb (String.eqb (type m)) types)
    (delivered (subject c) sent).

End TypedChannel.

(** Appended lists brought to their right-nested form. *)
Ltac flatten_lists :=
  repeat (progress (rewrite <- ?app_assoc; cbn [app])).

(* ================================================================== *)
(** * Facts about points and curve-like objects *)
(* ================================================================== *)

Lemma point_eq_refl (p : Point) : p =p= p.
Proof. split; reflexivity. Qed.

Lemma lerp_at_0 (a b : Point) (t : Q) : (t == 0)%Q -> PaperHelpers.lerp a b t =p= a.
Proof.
  intros Ht; split; cbn; rewrite Ht; ring.
Qed.

Lemma lerp_at_1 (a b : Point) (t : Q) : (t == 1)%Q -> PaperHelpers.lerp a b t =p= b.
Proof.
  intros Ht; split; cbn; rewrite Ht; ring.
Qed.

(** [lerp] is the convex combination of its two points. *)
Lemma lerp_convex (a b : Point) (t : Q) :
  PaperHelpers.lerp a b t =p=
  Point_add (Point_multiply a (1 - t)%Q) (Point_multiply b t).
Proof. split; cbn; ring. Qed.

Lemma fraction_in_extent (u len : Q) :
  (0 <= u)%Q -> (u <= 1)%Q -> (0 <= len)%Q ->
  (0 <= u * len)%Q /\ (u * len <= len)%Q.
Proof.
  intros Hu0 Hu1 Hlen; split.
  - apply Qmult_le_0_compat; assumption.
  - setoid_replace len with (1 * len)%Q at 2 by ring.
    apply Qmult_le_compat_r; assumption.
Qed.

Lemma horizontalStroke_samples (y len : Q) :
  (0 <= len)%Q -> samples_extent (horizontalStroke y len).
Proof.
  intros Hlen; split; [exact Hlen|].
  intros d Hd0 Hd1; cbn in *.
  apply Qle_bool_iff in Hd0; apply Qle_bool_iff in Hd1.
  rewrite Hd0; cbn. rewrite Hd0, Hd1; cbn; eauto.
Qed.

(** C1.  For curve-like sides [top] and [bottom] that sample their whole
    extent and every [u] in [0,1], the projection at [(u, v)] is the linear
    interpolation with parameter [v] between the sample of [top] at arc
    length [u * topLength] and the sample of [bottom] at
    [u * bottomLength]; at [v = 0] it is a point of [top], at [v = 1] a
    point of [bottom]. *)
Theorem sandwich_projection_is_lerp (top bottom : Curvelike) (u v : Q) :
  samples_extent top -> samples_extent bottom ->
  (0 <= u)%Q -> (u <= 1)%Q -> (0 <= v)%Q -> (v <= 1)%Q ->
  exists topPoint bottomPoint,
    getPointAt top (u * curve_length top)%Q = Some topPoint /\
    getPointAt bottom (u * curve_length bottom)%Q = Some bottomPoint /\
    PaperHelpers.sandwichPathProjection top bottom (mkPoint u v)
      = Some (PaperHelpers.lerp topPoint bottomPoint v) /\
    (exists p0, PaperHelpers.sandwichPathProjection top bottom (mkPoint u 0)
                  = Some p0 /\ p0 =p= topPoint /\ on_curve top p0) /\
    (exists p1, PaperHelpers.sandwichPathProjection top bottom (mkPoint u 1)
                  = Some p1 /\ p1 =p= bottomPoint /\ on_curve bottom p1).
Proof.
  intros [Ht0 Ht] [Hb0 Hb] Hu0 Hu1 _ _.
  destruct (fraction_in_extent u _ Hu0 Hu1 Ht0) as [Ht1 Ht2].
  destruct (fraction_in_extent u _ Hu0 Hu1 Hb0) as [Hb1 Hb2].
  destruct (Ht _ Ht1 Ht2) as [tp Htp].
  destruct (Hb _ Hb1 Hb2) as [bp Hbp].
  exists tp, bp.
  unfold PaperHelpers.sandwichPathProjection; cbn [px py].
  rewrite Htp, Hbp.
  repeat split; try reflexivity.
  - eexists; split; [reflexivity|].
    assert (Hp : PaperHelpers.lerp tp bp 0 =p= tp) by (apply lerp_at_0; reflexivity).
    split; [exact Hp|].
    exists (u * curve_length top)%Q, tp; auto.
  - eexists; split; [reflexivity|].
    assert (Hp : PaperHelpers.lerp tp bp 1 =p= bp) by (apply lerp_at_1; reflexivity).
    split; [exact Hp|].
    exists (u * curve_length bottom)%Q, bp; auto.
Qed.

Lemma sandwich_projection_is_lerp_witness :
  exists topPoint bottomPoint,
    getPointAt (horizontalStroke 0 10) ((1 # 2) * 10)%Q = Some topPoint /\
    getPointAt (horizontalStroke 10 20) ((1 # 2) * 20)%Q = Some bottomPoint /\
    PaperHelpers.sandwichPathProjection (horizontalStroke 0 10)
      (horizontalStroke 10 20) (mkPoint (1 # 2) (1 # 4))
      = Some (PaperHelpers.lerp topPoint bottomPoint (1 # 4)) /\
    (exists p0, PaperHelpers.sandwichPathProjection (horizontalStroke 0 10)
                  (horizontalStroke 10 20) (mkPoint (1 # 2) 0)
                  = Some p0 /\ p0 =p= topPoint /\
                on_curve (horizontalStroke 0 10) p0) /\
    (exists p1, PaperHelpers.sandwichPathProjection (horizontalStroke 0 10)
                  (horizontalStroke 10 20) (mkPoint (1 # 2) 1)
                  = Some p1 /\ p1 =p= bottomPoint /\
                on_curve (horizontalStroke 10 20) p1).
Proof.
  apply (sandwich_projection_is_lerp (horizontalStroke 0 10)
           (horizontalStroke 10 20) (1 # 2) (1 # 4)).
  - apply horizontalStroke_samples; discriminate.
  - apply horizontalStroke_samples; discriminate.
  - discriminate.
  - discriminate.
  - discriminate.
  - discriminate.
Defined.

(** The projection that [arrangePath] builds is the sandwich projection of
    [sides[0]] and the reversed [sides[2]]. *)
Lemma arrangeProjection_sides {E : Engine} (st : Store) (top right bottom left : Side) :
  arrangeProjection st [top; right; bottom; left] =
  PaperHelpers.sandwichPathProjection
    (pathCurve (sidePath st top))
    (pathCurve (Path_reverse (sidePath st bottom))).
Proof. reflexivity. Qed.

(** C5 (as stated, refuted).  A window of length 5 starting at arc length 5
    of a stroke of length 10, queried at distance 6: the clamped query has
    a point, [getPointAt] has none. *)
Lemma PathSection_getPointAt_not_clamped :
  let ps := SketchEditor.mkPathSection (horizontalStroke 0 10) 5 5 in
  SketchEditor.PathSection_getPointAt ps 6 = None /\
  (exists p, SketchEditor.clamped_getPointAt ps 6 = Some p /\
             p =p= mkPoint 10 0) /\
  SketchEditor.PathSection_getPointAt ps 6 <> SketchEditor.clamped_getPointAt ps 6.
Proof.
  cbv zeta; split; [reflexivity|]; split.
  - eexists; split; [vm_compute; reflexivity|split; reflexivity].
  - vm_compute; discriminate.
Qed.

(** C5 (amended).  [getPointAt(d)] of a window is what the underlying path
    answers at arc length [d + offset]: the window's [length] plays no part,
    nothing is clamped, and the answer is undefined exactly when the path's
    answer is; over a path that has no point past its end, every query that
    lands past the end is undefined. *)
Theorem PathSection_getPointAt_forwards (ps : SketchEditor.PathSection) (d : Q) :
  SketchEditor.PathSection_getPointAt ps d
    = getPointAt (SketchEditor.path ps) (d + SketchEditor.offset ps)%Q /\
  (forall len',
     SketchEditor.PathSection_getPointAt
       (SketchEditor.mkPathSection (SketchEditor.path ps)
          (SketchEditor.offset ps) len') d
     = SketchEditor.PathSection_getPointAt ps d) /\
  (SketchEditor.PathSection_getPointAt ps d = None <->
   getPointAt (SketchEditor.path ps) (d + SketchEditor.offset ps)%Q = None) /\
  ((forall x, (curve_length (SketchEditor.path ps) < x)%Q ->
              getPointAt (SketchEditor.path ps) x = None) ->
   (curve_length (SketchEditor.path ps) < d + SketchEditor.offset ps)%Q ->
   SketchEditor.PathSection_getPointAt ps d = None).
Proof.
  unfold SketchEditor.PathSection_getPointAt; cbn.
  repeat split; auto.
Qed.

(* ================================================================== *)
(** * The decomposition walk *)
(* ================================================================== *)

Section Walk.

Context {E : Engine}.

Variable st : Store.

Lemma walk_far (target : Point) (ms : list SegRef) :
  forall queue group sides rest,
    far st target ms = true ->
    walk st (Some target) queue group sides (ms ++ rest)
    = walk st (Some target) queue (group ++ ms) sides rest.
Proof.
  induction ms as [|m ms IH]; intros queue group sides rest Hfar; cbn.
  - now rewrite app_nil_r.
  - cbn in Hfar. apply andb_true_iff in Hfar as [Hm Hms].
    apply negb_true_iff in Hm. rewrite Hm.
    rewrite IH by assumption.
    now rewrite <- app_assoc.
Qed.

Lemma walk_close (target : Point) (c : SegRef) :
  forall queue group sides rest,
    isClose target (point (st c)) = true ->
    walk st (Some target) queue group sides (c :: rest)
    = walk st (fst (shift queue)) (snd (shift queue)) [c]
        (sides ++ [group ++ [c]]) rest.
Proof.
  intros queue group sides rest Hc; cbn.
  rewrite Hc. now destruct (shift queue).
Qed.

(** A run of segments away from the target, closed by a segment on it. *)
Lemma walk_side (target : Point) (ms : list SegRef) (c : SegRef) :
  forall queue group sides rest,
    far st target ms = true ->
    isClose target (point (st c)) = true ->
    walk st (Some target) queue group sides (ms ++ c :: rest)
    = walk st (fst (shift queue)) (snd (shift queue)) [c]
        (sides ++ [group ++ ms ++ [c]]) rest.
Proof.
  intros queue group sides rest Hfar Hc.
  rewrite walk_far by assumption.
  rewrite walk_close by assumption.
  now rewrite <- app_assoc.
Qed.

Lemma Overlapping_snoc (sides : list Side) (group : Side) :
  Overlapping sides -> continues sides group ->
  Overlapping (sides ++ [group]).
Proof.
  intros Hov; induction Hov as [|a|x pre post rest Hov IH]; intros Hc.
  - constructor.
  - destruct Hc as [Hc|(front & pre & x & post & Hs & Hg)]; [discriminate|].
    destruct front as [|f [|g front]]; cbn in Hs; try discriminate.
    injection Hs as ->. subst group. cbn. constructor. constructor.
  - cbn. constructor. apply IH.
    destruct Hc as [Hc|(front & pre' & x' & post' & Hs & Hg)]; [discriminate|].
    right. destruct front as [|f front]; cbn in Hs.
    + discriminate.
    + injection Hs as _ Hs. exists front, pre', x', post'. auto.
Qed.

Lemma walk_overlapping (l : list SegRef) :
  forall target queue group sides out,
    Overlapping sides -> continues sides group ->
    walk st target queue group sides l = Normal out ->
    Overlapping out.
Proof.
  induction l as [|sg l IH]; intros target queue group sides out Hov Hc Hw; cbn in Hw.
  - now injection Hw as <-.
  - destruct target as [t|]; [|discriminate].
    destruct (isClose t (point (st sg))).
    + destruct (shift queue) as [next queue'].
      eapply IH; [| |exact Hw].
      * apply Overlapping_snoc; [assumption|].
        destruct Hc as [->|(front & pre & x & post & -> & ->)]; [now left|].
        right. exists front, pre, x, (post ++ [sg]). auto.
      * right. exists sides, group, sg, []. auto.
    + eapply IH; [exact Hov| |exact Hw].
      destruct Hc as [->|(front & pre & x & post & -> & ->)]; [now left|].
      right. exists front, pre, x, (post ++ [sg]). auto.
Qed.

Lemma Overlapping_nth (sides : list Side) :
  Overlapping sides ->
  forall i prev next,
    nth_error sides i = Some prev ->
    nth_error sides (S i) = Some next ->
    exists x pre post, prev = pre ++ [x] /\ next = x :: post.
Proof.
  intros Hov; induction Hov as [|a|x pre post rest Hov IH]; intros i prev next Hp Hn.
  - destruct i; discriminate.
  - destruct i as [|[|i]]; discriminate.
  - destruct i as [|i].
    + cbn in Hp, Hn. injection Hp as <-. injection Hn as <-. eauto.
    + cbn in Hp. apply (IH i prev next Hp Hn).
Qed.

End Walk.

Section Decomposition.

Context {E : Engine}.

(** How [getOutlineSides] ends, in terms of how its loop ends. *)
Lemma getOutlineSides_outcome (s : StretchyPath) :
  match getOutlineSides s with
  | Normal sides => walkOutline s = Normal sides /\ List.length sides = 4
  | Throw FailedToGetSides =>
      exists sides, walkOutline s = Normal sides /\ List.length sides <> 4
  | Throw TypeError => walkOutline s = Throw TypeError
  | Throw ProjectionFailed => False
  end.
Proof.
  unfold getOutlineSides.
  destruct (walkOutline s) as [sides|e] eqn:Hw.
  - destruct (Nat.eqb (List.length sides) 4) eqn:Hlen.
    + apply Nat.eqb_eq in Hlen. auto.
    + apply Nat.eqb_neq in Hlen. eauto.
  - unfold walkOutline in Hw.
    destruct (segmentList s) as [l|].
    + destruct (initialTargets s) as [target queue].
      revert Hw. generalize (@nil SegRef) at 1. generalize (@nil Side).
      revert target queue.
      induction l as [|sg l IH]; intros target queue sides group Hw; cbn in Hw.
      * discriminate.
      * destruct target as [t|]; [|now injection Hw as <-].
        destruct (isClose t (point (store s sg)));
          [destruct (shift queue) as [next queue']|]; eapply IH; exact Hw.
    + now injection Hw as <-.
Qed.

(** C9.  When [getOutlineSides] returns, every side after the first begins
    with the segment object on which the side before it was closed: the two
    sides share that corner segment. *)
Theorem sides_share_corner_segment (s : StretchyPath) (sides : list Side) :
  getOutlineSides s = Normal sides ->
  forall i prev next,
    nth_error sides i = Some prev ->
    nth_error sides (S i) = Some next ->
    exists x pre post, prev = pre ++ [x] /\ next = x :: post.
Proof.
  intros Hg.
  pose proof (getOutlineSides_outcome s) as Ho. rewrite Hg in Ho.
  destruct Ho as [Hw _].
  unfold walkOutline in Hw.
  destruct (segmentList s) as [l|]; [|discriminate].
  destruct (initialTargets s) as [target queue].
  apply Overlapping_nth.
  eapply walk_overlapping; [| |exact Hw].
  - constructor.
  - now left.
Qed.

End Decomposition.

Lemma frame_wraps (c0 c1 c2 c3 : SegRef) (m0 m1 m2 m3 : list SegRef) :
  (c0 :: m0 ++ c1 :: m1 ++ c2 :: m2 ++ c3 :: m3) ++ [c0]
  = (c0 :: m0) ++ c1 :: m1 ++ c2 :: m2 ++ c3 :: m3 ++ [c0].
Proof.
  repeat (rewrite <- app_assoc || rewrite <- app_comm_cons).
  reflexivity.
Qed.

Section ValidFrame.

Context {E : Engine}.

(** The walk on a frame whose outline starts at [corners[0]] and meets the
    four corners in order, no vertex before an awaited corner being within
    tolerance of it. *)
Lemma getOutlineSides_runs (s : StretchyPath)
    (c0 c1 c2 c3 : SegRef) (m0 m1 m2 m3 : list SegRef) :
  corners s = [c0; c1; c2; c3] ->
  outline s = c0 :: m0 ++ c1 :: m1 ++ c2 :: m2 ++ c3 :: m3 ->
  forallb (fun c => isClose (point (store s c)) (point (store s c)))
          (corners s) = true ->
  far (store s) (point (store s c1)) (c0 :: m0) = true ->
  far (store s) (point (store s c2)) m1 = true ->
  far (store s) (point (store s c3)) m2 = true ->
  far (store s) (point (store s c0)) m3 = true ->
  getOutlineSides s
  = Normal [c0 :: m0 ++ [c1]; c1 :: m1 ++ [c2];
            c2 :: m2 ++ [c3]; c3 :: m3 ++ [c0]].
Proof.
  intros Hc Ho Hrefl H1 H2 H3 H0.
  rewrite Hc in Hrefl. cbn in Hrefl.
  repeat (apply andb_true_iff in Hrefl as [? Hrefl]).
  unfold getOutlineSides, walkOutline, segmentList, initialTargets.
  rewrite Hc, Ho. cbn [map shift app].
  change (c0 :: (m0 ++ c1 :: m1 ++ c2 :: m2 ++ c3 :: m3) ++ [c0])
    with ((c0 :: m0 ++ c1 :: m1 ++ c2 :: m2 ++ c3 :: m3) ++ [c0]).
  rewrite frame_wraps.
  rewrite walk_side by assumption. cbn [shift fst snd].
  rewrite walk_side by assumption. cbn [shift fst snd].
  rewrite walk_side by assumption. cbn [shift fst snd].
  rewrite walk_side by assumption. cbn [shift fst snd].
  reflexivity.
Qed.

(** C2 (amended).  A frame whose outline starts at [corners[0]] and meets
    the four corners in order, where no vertex before an awaited corner is
    within tolerance of it: the decomposition returns exactly 4 sides, side
    k running from corner k to corner k+1 with both corners included, and
    the sides without their last segment (the corner shared with the next
    side) concatenate to the segment sequence of the frame. *)
Theorem getOutlineSides_valid_frame (s : StretchyPath)
    (c0 c1 c2 c3 : SegRef) (m0 m1 m2 m3 : list SegRef) :
  corners s = [c0; c1; c2; c3] ->
  outline s = c0 :: m0 ++ c1 :: m1 ++ c2 :: m2 ++ c3 :: m3 ->
  forallb (fun c => isClose (point (store s c)) (point (store s c)))
          (corners s) = true ->
  far (store s) (point (store s c1)) (c0 :: m0) = true ->
  far (store s) (point (store s c2)) m1 = true ->
  far (store s) (point (store s c3)) m2 = true ->
  far (store s) (point (store s c0)) m3 = true ->
  let sides :=
    [c0 :: m0 ++ [c1]; c1 :: m1 ++ [c2]; c2 :: m2 ++ [c3]; c3 :: m3 ++ [c0]] in
  getOutlineSides s = Normal sides /\
  List.length sides = 4 /\
  concat (map (@removelast SegRef) sides) = outline s.
Proof.
  intros Hc Ho Hrefl H1 H2 H3 H0 sides.
  split; [|split].
  - now apply getOutlineSides_runs.
  - reflexivity.
  - rewrite Ho. unfold sides. cbn [map concat].
    change (c0 :: m0 ++ [c1]) with ((c0 :: m0) ++ [c1]).
    change (c1 :: m1 ++ [c2]) with ((c1 :: m1) ++ [c2]).
    change (c2 :: m2 ++ [c3]) with ((c2 :: m2) ++ [c3]).
    change (c3 :: m3 ++ [c0]) with ((c3 :: m3) ++ [c0]).
    rewrite !removelast_last.
    repeat (rewrite <- app_assoc || rewrite <- app_comm_cons || rewrite app_nil_r).
    reflexivity.
Qed.

End ValidFrame.

Lemma getOutlineSides_valid_frame_witness :
  corners squareStretchy = [0; 1; 2; 3] /\
  outline squareStretchy = 0 :: [] ++ 1 :: [] ++ 2 :: [] ++ 3 :: [] /\
  @getOutlineSides polylineEngine squareStretchy
    = Normal [[0; 1]; [1; 2]; [2; 3]; [3; 0]] /\
  concat (map (@removelast SegRef) [[0; 1]; [1; 2]; [2; 3]; [3; 0]])
    = outline squareStretchy.
Proof.
  pose proof (@getOutlineSides_valid_frame polylineEngine squareStretchy
                0 1 2 3 [] [] [] []
                eq_refl eq_refl eq_refl eq_refl eq_refl eq_refl eq_refl)
    as (Hsides & _ & Hconcat).
  split; [vm_compute; reflexivity|].
  split; [vm_compute; reflexivity|].
  split; [exact Hsides | exact Hconcat].
Defined.

(** C2 (as stated, refuted).  On the square frame the decomposition returns
    four sides, and their concatenation has every corner twice: it is not
    the vertex sequence of the frame. *)
Lemma concatenated_sides_repeat_corners :
  @getOutlineSides polylineEngine squareStretchy
    = Normal [[0; 1]; [1; 2]; [2; 3]; [3; 0]] /\
  outline squareStretchy = [0; 1; 2; 3] /\
  concat [[0; 1]; [1; 2]; [2; 3]; [3; 0]] = [0; 1; 1; 2; 2; 3; 3; 0] /\
  concat [[0; 1]; [1; 2]; [2; 3]; [3; 0]] <> outline squareStretchy.
Proof.
  repeat split; try (vm_compute; reflexivity).
  vm_compute; discriminate.
Qed.

Lemma sides_share_corner_segment_witness :
  @getOutlineSides polylineEngine squareStretchy
    = Normal [[0; 1]; [1; 2]; [2; 3]; [3; 0]] /\
  exists x pre post, [1; 2] = pre ++ [x] /\ [2; 3] = x :: post.
Proof.
  split; [vm_compute; reflexivity|].
  apply (@sides_share_corner_segment polylineEngine squareStretchy
           [[0; 1]; [1; 2]; [2; 3]; [3; 0]]) with (i := 1).
  - vm_compute; reflexivity.
  - reflexivity.
  - reflexivity.
Defined.

(** C3 (the code at the failing input).  A StretchyPath built on artwork
    without extent has its four corners on one point.  The walk closes a
    side on each of the four outline segments, the corner queue is then
    empty, and the repeated first segment is tested against an undefined
    target: the call ends in a TypeError with 4 sides accumulated, not in
    ['failed to get sides'] and not by returning. *)
Theorem getOutlineSides_coincident_corners :
  let s := fst (@construct polylineEngine dotArt) in
  outline s = [0; 1; 2; 3] /\
  cornerPoints s = [mkPoint 3 4; mkPoint 3 4; mkPoint 3 4; mkPoint 3 4] /\
  (let '(target, queue) := initialTargets s in
   @walk polylineEngine (store s) target queue [] [] (outline s))
    = Normal [[0]; [0; 1]; [1; 2]; [2; 3]] /\
  @walkOutline polylineEngine s = Throw TypeError /\
  @getOutlineSides polylineEngine s = Throw TypeError /\
  snd (@construct polylineEngine dotArt) = Throw TypeError.
Proof.
  cbv zeta. repeat split; vm_compute; reflexivity.
Qed.

(** Reached by edits alone: the corners of the square frame dragged onto
    one point, one after the other.  After the first and the second drag
    the decomposition returns four sides, the first of them a single
    segment, a path without a curve to sample: these passes end in an
    exception out of the point mapping.  The third ends in the TypeError.
    The artwork on display is the one the constructor made. *)
Example dragged_corners_TypeError :
  let s1 := @edit polylineEngine squareStretchy (CornerMoved 1 (mkPoint 0 0)) in
  let s2 := @edit polylineEngine (fst s1) (CornerMoved 2 (mkPoint 0 0)) in
  let s3 := @edit polylineEngine (fst s2) (CornerMoved 3 (mkPoint 0 0)) in
  @getOutlineSides polylineEngine (fst s1)
    = Normal [[0]; [0; 1; 2]; [2; 3]; [3; 0]] /\
  snd s1 = Throw ProjectionFailed /\
  @getOutlineSides polylineEngine (fst s2)
    = Normal [[0]; [0; 1]; [1; 2; 3]; [3; 0]] /\
  snd s2 = Throw ProjectionFailed /\
  snd s3 = Throw TypeError /\
  @walkOutline polylineEngine (fst s3) = Throw TypeError /\
  displayPath (fst s3) = displayPath squareStretchy.
Proof.
  cbv zeta. repeat split; vm_compute; reflexivity.
Qed.

(* ================================================================== *)
(** * The arrangement pass *)
(* ================================================================== *)

Section Arrangement.

Context {E : Engine}.

(** The decomposition reads the corners, the outline and the store only. *)
Lemma getOutlineSides_frame (s s' : StretchyPath) :
  corners s = corners s' -> outline s = outline s' -> store s = store s' ->
  getOutlineSides s = getOutlineSides s'.
Proof.
  intros Hc Ho Hs.
  unfold getOutlineSides, walkOutline, segmentList, initialTargets.
  now rewrite Hc, Ho, Hs.
Qed.

Lemma getOutlineSides_updateMidpiontMarkers (s : StretchyPath) :
  getOutlineSides (updateMidpiontMarkers s) = getOutlineSides s.
Proof. now apply getOutlineSides_frame. Qed.

(** What a pass leaves as it found it. *)
Lemma arrangePath_fields (s : StretchyPath) :
  let s' := fst (arrangePath s) in
  sourcePath s' = sourcePath s /\ corners s' = corners s /\
  outline s' = outline s /\ store s' = store s /\ nextRef s' = nextRef s /\
  segmentGroup s' = segmentGroup s /\ handles s' = handles s /\
  midpointGroup s' = midpointGroup s.
Proof.
  unfold arrangePath.
  destruct (getOutlineSides s) as [sides|e]; [|cbn; tauto].
  destruct (transformPathItem _ _); cbn; tauto.
Qed.

Lemma arrangeContents_fields (s : StretchyPath) :
  let s' := fst (arrangeContents s) in
  sourcePath s' = sourcePath s /\ corners s' = corners s /\
  outline s' = outline s /\ store s' = store s /\ nextRef s' = nextRef s /\
  segmentGroup s' = segmentGroup s /\ handles s' = handles s /\
  midpointGroup s' = splittable (corners s) (outline s).
Proof.
  unfold arrangeContents.
  destruct (arrangePath_fields (updateMidpiontMarkers s))
    as (H1 & H2 & H3 & H4 & H5 & H6 & H7 & H8).
  cbv zeta. rewrite H1, H2, H3, H4, H5, H6, H7, H8. cbn. tauto.
Qed.

(** A pass that throws changes nothing. *)
Lemma arrangePath_throw (s : StretchyPath) (e : Thrown) :
  snd (arrangePath s) = Throw e -> fst (arrangePath s) = s.
Proof.
  unfold arrangePath.
  destruct (getOutlineSides s) as [sides|e']; [|reflexivity].
  destruct (transformPathItem _ _); [discriminate|reflexivity].
Qed.

(** C4.  When the decomposition of an arrangement pass throws, the pass
    ends with that exception before anything is assigned: [arrangePath]
    leaves the whole object as it was, [arrangeContents] has rebuilt the
    midpoint markers only, and [displayPath] is the one from before. *)
Theorem failed_decomposition_keeps_displayPath (s : StretchyPath) (e : Thrown) :
  getOutlineSides s = Throw e ->
  arrangePath s = (s, Throw e) /\
  arrangeContents s = (updateMidpiontMarkers s, Throw e) /\
  displayPath (fst (arrangePath s)) = displayPath s /\
  displayPath (fst (arrangeContents s)) = displayPath s.
Proof.
  intros Hg.
  assert (Hp : arrangePath s = (s, Throw e))
    by (unfold arrangePath; now rewrite Hg).
  assert (Hc : arrangeContents s = (updateMidpiontMarkers s, Throw e)).
  { unfold arrangeContents, arrangePath.
    now rewrite getOutlineSides_updateMidpiontMarkers, Hg. }
  rewrite Hp, Hc. auto.
Qed.

(** Whatever a pass throws, the artwork on display stays. *)
Lemma thrown_pass_keeps_displayPath (s : StretchyPath) (e : Thrown) :
  snd (arrangeContents s) = Throw e ->
  displayPath (fst (arrangeContents s)) = displayPath s.
Proof.
  unfold arrangeContents. intros Ht.
  now rewrite (arrangePath_throw _ _ Ht).
Qed.

(** C6.  A second [arrangeContents()] right after the first ends the same
    way and leaves the same object; in particular the same [displayPath]. *)
Theorem arrangeContents_twice (s : StretchyPath) :
  arrangeContents (fst (arrangeContents s)) = arrangeContents s /\
  displayPath (fst (arrangeContents (fst (arrangeContents s))))
    = displayPath (fst (arrangeContents s)).
Proof.
  assert (H : arrangeContents (fst (arrangeContents s)) = arrangeContents s).
  { unfold arrangeContents at 2 3. unfold arrangePath.
    destruct (getOutlineSides (updateMidpiontMarkers s)) as [sides|e] eqn:Hg.
    - destruct (transformPathItem
                  (arrangeTransform (updateMidpiontMarkers s) sides)
                  (sourcePath (updateMidpiontMarkers s)))
        as [newPath|] eqn:Ht; cbn [fst].
      + unfold arrangeContents, arrangePath.
        change (getOutlineSides
                  (updateMidpiontMarkers
                     (set_displayPath (updateMidpiontMarkers s) (Some newPath))))
          with (getOutlineSides (updateMidpiontMarkers s)).
        rewrite Hg.
        change (transformPathItem
                  (arrangeTransform
                     (updateMidpiontMarkers
                        (set_displayPath (updateMidpiontMarkers s) (Some newPath)))
                     sides)
                  (sourcePath
                     (updateMidpiontMarkers
                        (set_displayPath (updateMidpiontMarkers s) (Some newPath)))))
          with (transformPathItem
                  (arrangeTransform (updateMidpiontMarkers s) sides)
                  (sourcePath (updateMidpiontMarkers s))).
        rewrite Ht. reflexivity.
      + unfold arrangeContents, arrangePath.
        change (getOutlineSides (updateMidpiontMarkers (updateMidpiontMarkers s)))
          with (getOutlineSides (updateMidpiontMarkers s)).
        rewrite Hg.
        change (transformPathItem
                  (arrangeTransform
                     (updateMidpiontMarkers (updateMidpiontMarkers s)) sides)
                  (sourcePath (updateMidpiontMarkers (updateMidpiontMarkers s))))
          with (transformPathItem
                  (arrangeTransform (updateMidpiontMarkers s) sides)
                  (sourcePath (updateMidpiontMarkers s))).
        rewrite Ht. reflexivity.
    - cbn [fst]. unfold arrangeContents, arrangePath.
      change (getOutlineSides (updateMidpiontMarkers (updateMidpiontMarkers s)))
        with (getOutlineSides (updateMidpiontMarkers s)).
      rewrite Hg. reflexivity. }
  split; [exact H|now rewrite H].
Qed.

End Arrangement.

Lemma failed_decomposition_keeps_displayPath_witness :
  @getOutlineSides polylineEngine corruptedStretchy = Throw FailedToGetSides /\
  displayPath corruptedStretchy = Some squareArt /\
  displayPath (fst (@arrangeContents polylineEngine corruptedStretchy))
    = displayPath corruptedStretchy.
Proof.
  split; [vm_compute; reflexivity|].
  split; [vm_compute; reflexivity|].
  apply (@failed_decomposition_keeps_displayPath polylineEngine
           corruptedStretchy FailedToGetSides).
  vm_compute; reflexivity.
Defined.

(* ================================================================== *)
(** * Curves of the frame and the splitter handles *)
(* ================================================================== *)

Lemma openCurves_cons (a t : SegRef) (l : list SegRef) :
  openCurves (a :: t :: l) = (a, t) :: openCurves (t :: l).
Proof. reflexivity. Qed.

Lemma openCurves_firsts (tm : list SegRef) :
  forall a b c, In c (openCurves (a :: tm ++ [b])) -> In (fst c) (a :: tm).
Proof.
  induction tm as [|t tm IH]; intros a b c Hc.
  - cbn in Hc. destruct Hc as [<-|[]]. now left.
  - cbn [app] in Hc. rewrite openCurves_cons in Hc.
    destruct Hc as [<-|Hc]; [now left|].
    right. now apply (IH t b).
Qed.

Lemma combine_chain (tm : list SegRef) :
  forall a b rest rest',
    combine (a :: tm ++ b :: rest) (tm ++ b :: rest')
    = openCurves (a :: tm ++ [b]) ++ combine (b :: rest) rest'.
Proof.
  induction tm as [|t tm IH]; intros a b rest rest'.
  - reflexivity.
  - cbn [app]. rewrite openCurves_cons. cbn [combine app].
    f_equal. apply IH.
Qed.

Lemma closedCurves_frame (c0 c1 c2 c3 : SegRef) (tm bm : list SegRef) :
  closedCurves (c0 :: tm ++ c1 :: c2 :: bm ++ [c3])
  = openCurves (c0 :: tm ++ [c1]) ++ (c1, c2)
      :: openCurves (c2 :: bm ++ [c3]) ++ [(c3, c0)].
Proof.
  unfold closedCurves.
  replace ((tm ++ c1 :: c2 :: bm ++ [c3]) ++ [c0])
    with (tm ++ c1 :: c2 :: bm ++ [c3; c0]).
  2:{ repeat (rewrite <- app_assoc || rewrite <- app_comm_cons). reflexivity. }
  rewrite combine_chain. f_equal.
  change (combine (c1 :: c2 :: bm ++ [c3]) (c2 :: bm ++ [c3; c0]))
    with ((c1, c2) :: combine (c2 :: bm ++ [c3]) (bm ++ c3 :: [c0])).
  f_equal.
  rewrite (combine_chain bm c2 c3 [] [c0]). reflexivity.
Qed.

Lemma filter_all {A : Type} (f : A -> bool) (l : list A) :
  (forall a, In a l -> f a = true) -> filter f l = l.
Proof.
  induction l as [|a l IH]; intros H; cbn; [reflexivity|].
  rewrite (H a (or_introl eq_refl)). f_equal. apply IH.
  intros b Hb. apply H. now right.
Qed.

Lemma skipsCurve_frame (c : Curve) :
  skipsCurve [0; 1; 2; 3] c = (fst c =? 1) || (fst c =? 3).
Proof. reflexivity. Qed.

(** With the frame in shape, the splitter handles sit on the curves of the
    run from corner 0 to corner 1 and of the run from corner 2 to corner 3,
    and nowhere else. *)
Lemma splittable_frame (tm bm : list SegRef) :
  (forall r, In r (tm ++ bm) -> 4 <= r) ->
  splittable [0; 1; 2; 3] (0 :: tm ++ 1 :: 2 :: bm ++ [3])
  = openCurves (0 :: tm ++ [1]) ++ openCurves (2 :: bm ++ [3]).
Proof.
  intros Hge. unfold splittable.
  rewrite closedCurves_frame, filter_app. cbn [filter].
  rewrite skipsCurve_frame. cbn [fst Nat.eqb orb negb].
  rewrite filter_app. cbn [filter]. rewrite skipsCurve_frame.
  cbn [fst Nat.eqb orb negb]. rewrite app_nil_r.
  f_equal; apply filter_all; intros c Hc; rewrite skipsCurve_frame;
    apply openCurves_firsts in Hc; destruct Hc as [<-|Hc]; try reflexivity.
  - assert (4 <= fst c) by (apply Hge, in_or_app; now left).
    destruct (fst c) as [|[|[|[|n]]]]; try lia. reflexivity.
  - assert (4 <= fst c) by (apply Hge, in_or_app; now right).
    destruct (fst c) as [|[|[|[|n]]]]; try lia. reflexivity.
Qed.

Lemma insertAfter_app (r x : SegRef) (l1 l2 : list SegRef) :
  ~ In r l1 -> insertAfter r x (l1 ++ r :: l2) = l1 ++ r :: x :: l2.
Proof.
  induction l1 as [|y l1 IH]; intros Hn; cbn.
  - now rewrite Nat.eqb_refl.
  - destruct (Nat.eqb_spec y r) as [->|_].
    + exfalso. apply Hn. now left.
    + f_equal. apply IH. intros Hin. apply Hn. now right.
Qed.

Lemma Curve_eqb_eq (c d : Curve) : Curve_eqb c d = true -> c = d.
Proof.
  destruct c, d. unfold Curve_eqb. cbn. intros H.
  apply andb_true_iff in H as [H1 H2].
  apply Nat.eqb_eq in H1, H2. now subst.
Qed.

(** A vertex inserted behind a vertex of the two splittable runs lands in
    that run. *)
Lemma insertAfter_frame (tm bm : list SegRef) (a x : SegRef) :
  (forall r, In r (tm ++ bm) -> 4 <= r) ->
  NoDup (tm ++ bm) ->
  In a (0 :: tm) \/ In a (2 :: bm) ->
  exists l1 l2 tm' bm',
    tm ++ bm = l1 ++ l2 /\
    tm' ++ bm' = l1 ++ x :: l2 /\
    insertAfter a x (0 :: tm ++ 1 :: 2 :: bm ++ [3])
    = 0 :: tm' ++ 1 :: 2 :: bm' ++ [3].
Proof.
  intros Hge Hnd [[<-|Ha]|[<-|Ha]].
  - exists [], (tm ++ bm), (x :: tm), bm. repeat split.
  - destruct (in_split _ _ Ha) as (t1 & t2 & ->).
    assert (Ha4 : 4 <= a) by (apply Hge; rewrite !in_app_iff; cbn; auto).
    assert (Hn1 : ~ In a (0 :: t1)).
    { intros [H0|H1]; [lia|].
      revert Hnd. flatten_lists. intros Hnd.
      apply NoDup_remove_2 in Hnd. apply Hnd, in_or_app. now left. }
    exists (t1 ++ [a]), (t2 ++ bm), (t1 ++ a :: x :: t2), bm.
    split; [now flatten_lists|]. split; [now flatten_lists|].
    replace (0 :: (t1 ++ a :: t2) ++ 1 :: 2 :: bm ++ [3])
      with ((0 :: t1) ++ a :: t2 ++ 1 :: 2 :: bm ++ [3]) by now flatten_lists.
    rewrite insertAfter_app by assumption. now flatten_lists.
  - assert (Hn1 : ~ In 2 (0 :: tm ++ [1])).
    { intros [H0|H1]; [lia|]. apply in_app_or in H1 as [H1|[H1|[]]]; [|lia].
      assert (4 <= 2) by (apply Hge, in_or_app; now left). lia. }
    exists tm, bm, tm, (x :: bm). split; [reflexivity|]. split; [reflexivity|].
    replace (0 :: tm ++ 1 :: 2 :: bm ++ [3])
      with ((0 :: tm ++ [1]) ++ 2 :: bm ++ [3]) by now flatten_lists.
    rewrite insertAfter_app by assumption. now flatten_lists.
  - destruct (in_split _ _ Ha) as (b1 & b2 & ->).
    assert (Ha4 : 4 <= a) by (apply Hge; rewrite !in_app_iff; cbn; auto).
    assert (Hn1 : ~ In a (0 :: tm ++ 1 :: 2 :: b1)).
    { intros [H0|H1]; [lia|].
      apply in_app_or in H1 as [H1|[H1|[H1|H1]]]; try lia.
      - rewrite app_assoc in Hnd. apply NoDup_remove_2 in Hnd.
        apply Hnd. rewrite !in_app_iff. auto.
      - rewrite app_assoc in Hnd. apply NoDup_remove_2 in Hnd.
        apply Hnd. rewrite !in_app_iff. auto. }
    exists (tm ++ b1 ++ [a]), b2, tm, (b1 ++ a :: x :: b2).
    split; [now flatten_lists|]. split; [now flatten_lists|].
    replace (0 :: tm ++ 1 :: 2 :: (b1 ++ a :: b2) ++ [3])
      with ((0 :: tm ++ 1 :: 2 :: b1) ++ a :: b2 ++ [3]) by now flatten_lists.
    rewrite insertAfter_app by assumption. now flatten_lists.
Qed.

Section Invariant.

Context {E : Engine}.

Lemma arrangeContents_shape (s : StretchyPath) (tm bm : list SegRef) :
  corners s = [0; 1; 2; 3] ->
  outline s = 0 :: tm ++ 1 :: 2 :: bm ++ [3] ->
  (forall r, In r (tm ++ bm) -> 4 <= r < nextRef s) ->
  4 <= nextRef s ->
  NoDup (tm ++ bm) ->
  frameShape (fst (arrangeContents s)) tm bm.
Proof.
  intros Hc Ho Hr Hn Hnd.
  destruct (arrangeContents_fields s) as (_ & H2 & H3 & _ & H5 & _ & _ & H8).
  unfold frameShape. rewrite H2, H3, H5, H8. auto 10.
Qed.

Lemma construct_shape (src : CompoundPath) :
  frameShape (fst (construct src)) [] [].
Proof.
  unfold construct. apply arrangeContents_shape; cbn; try reflexivity.
  - intros r [].
  - constructor.
Qed.

Lemma edit_shape (s : StretchyPath) (e : Edit) (tm bm : list SegRef) :
  frameShape s tm bm ->
  exists tm' bm', frameShape (fst (edit s e)) tm' bm'.
Proof.
  intros Hs. pose proof Hs as (Hc & Ho & Hr & Hn & Hnd & Hm).
  destruct e as [r p|curve p]; cbn [edit].
  - destruct (existsb (Nat.eqb r) (segmentGroup s ++ handles s)); [|eauto].
    exists tm, bm. unfold onChangeComplete.
    apply arrangeContents_shape; assumption.
  - destruct (existsb (Curve_eqb curve) (midpointGroup s)) eqn:Hex; [|eauto].
    apply existsb_exists in Hex as (c' & Hin & Heq).
    apply Curve_eqb_eq in Heq. subst c'.
    rewrite Hm, Hc, Ho in Hin.
    rewrite splittable_frame in Hin by (intros r Hin'; now apply Hr).
    assert (Hpos : In (segment1 curve) (0 :: tm) \/ In (segment1 curve) (2 :: bm)).
    { apply in_app_or in Hin as [Hin|Hin];
        apply openCurves_firsts in Hin; auto. }
    destruct (insertAfter_frame tm bm (segment1 curve) (nextRef s))
      as (l1 & l2 & tm' & bm' & Hold & Hnew & Hins); try assumption.
    { intros r Hin'. now apply Hr. }
    exists tm', bm'. cbn [CurveSplitterHandle_divide]. unfold onDragEnd.
    apply arrangeContents_shape; cbn.
    + assumption.
    + rewrite Ho. exact Hins.
    + intros r Hin'. rewrite Hnew in Hin'.
      apply in_elt_inv in Hin' as [Heq|Hin']; [lia|].
      rewrite <- Hold in Hin'. apply Hr in Hin'. lia.
    + lia.
    + rewrite Hnew.
      apply (Permutation_NoDup (Permutation_middle l1 l2 (nextRef s))).
      constructor; [|now rewrite <- Hold].
      rewrite <- Hold. intros Hin'. apply Hr in Hin'. lia.
Qed.

Lemma edits_shape (es : list Edit) :
  forall s tm bm,
    frameShape s tm bm ->
    exists tm' bm', frameShape (edits s es) tm' bm'.
Proof.
  induction es as [|e es IH]; intros s tm bm Hs; cbn.
  - eauto.
  - destruct (edit_shape s e tm bm Hs) as (tm' & bm' & Hs').
    apply (IH _ _ _ Hs').
Qed.

End Invariant.

(* ================================================================== *)
(** * The frame under edits *)
(* ================================================================== *)

Lemma intermediate_frame (s : StretchyPath) (tm bm : list SegRef) :
  frameShape s tm bm -> intermediate s = tm ++ bm.
Proof.
  intros (Hc & Ho & Hr & _ & _ & _).
  unfold intermediate. rewrite Hc, Ho.
  assert (Hkeep : forall l, (forall r, In r l -> In r (tm ++ bm)) ->
            filter (fun r => negb (existsb (Nat.eqb r) [0; 1; 2; 3])) l = l).
  { intros l Hl. apply filter_all. intros r Hin.
    apply Hl, Hr in Hin.
    destruct r as [|[|[|[|r]]]]; try lia. reflexivity. }
  cbn [filter existsb Nat.eqb orb negb]. rewrite filter_app.
  cbn [filter existsb Nat.eqb orb negb]. rewrite filter_app.
  cbn [filter existsb Nat.eqb orb negb]. rewrite app_nil_r.
  rewrite !Hkeep; [reflexivity| |]; intros r Hin; apply in_or_app; auto.
Qed.

Section Edits.

Context {E : Engine}.

(** C7.  After any sequence of midpoint insertions and corner drags on a
    constructed StretchyPath, [corners] is the array it was after the
    construction: the same 4 segment objects, all of them vertices of the
    outline; the outline has these 4 and the intermediate vertices. *)
Theorem corners_stay_four (src : CompoundPath) (es : list Edit) :
  let s0 := fst (construct src) in
  let s := edits s0 es in
  corners s = corners s0 /\
  List.length (corners s) = 4 /\
  NoDup (corners s) /\
  incl (corners s) (outline s) /\
  List.length (outline s) = 4 + List.length (intermediate s).
Proof.
  cbv zeta.
  pose proof (construct_shape src) as H0.
  destruct (edits_shape es _ _ _ H0) as (tm & bm & Hs).
  rewrite (intermediate_frame _ _ _ Hs).
  destruct H0 as (Hc0 & _). destruct Hs as (Hc & Ho & _).
  rewrite Hc, Hc0, Ho. repeat split.
  - repeat constructor; cbn; lia.
  - intros r Hr. cbn in Hr.
    destruct Hr as [<-|[<-|[<-|[<-|[]]]]];
      cbn; rewrite ?in_app_iff; cbn; rewrite ?in_app_iff; cbn; auto 10.
  - cbn. rewrite !length_app. cbn. rewrite !length_app. cbn. lia.
Qed.

(** C10 (amended).  Every arrangement pass rebuilds the midpoint markers
    with one splitter handle for each curve of the outline whose first
    segment is neither [corners[1]] nor [corners[3]].  On a constructed
    StretchyPath, after any edits, the outline runs from corner 0 over top
    vertices to corner 1, by one curve to corner 2, over bottom vertices to
    corner 3 and by one curve back to corner 0; the handles are on the
    curves of the top run and of the bottom run, none on the curve from
    corner 1 to corner 2 or on the one from corner 3 to corner 0.  The two
    runs are [sides[0]] and [sides[2]] of [getOutlineSides] and the two
    curves are [sides[1]] and [sides[3]] as long as the walk meets every
    corner on its own segment first: each corner point is within tolerance
    of itself, no vertex of the top run before corner 1 is within tolerance
    of the point of corner 1, and no vertex of the bottom run between
    corner 2 and corner 3 within tolerance of the point of corner 3. *)
Theorem splitter_handles_on_corner_runs :
  (forall s : StretchyPath,
     midpointGroup (fst (arrangeContents s))
     = filter (fun curve => negb (skipsCurve (corners s) curve))
              (closedCurves (outline s))) /\
  (forall (s : StretchyPath) (c : Curve),
     In c (midpointGroup (fst (arrangeContents s))) <->
     In c (closedCurves (outline s)) /\
     isCorner (corners s) 1 (segment1 c) = false /\
     isCorner (corners s) 3 (segment1 c) = false) /\
  (forall (src : CompoundPath) (es : list Edit),
     let s := edits (fst (construct src)) es in
     exists c0 c1 c2 c3 tm bm,
       corners s = [c0; c1; c2; c3] /\
       outline s = c0 :: tm ++ c1 :: c2 :: bm ++ [c3] /\
       closedCurves (outline s)
       = openCurves (c0 :: tm ++ [c1]) ++ (c1, c2)
           :: openCurves (c2 :: bm ++ [c3]) ++ [(c3, c0)] /\
       midpointGroup s
       = openCurves (c0 :: tm ++ [c1]) ++ openCurves (c2 :: bm ++ [c3]) /\
       ~ In (c1, c2) (midpointGroup s) /\
       ~ In (c3, c0) (midpointGroup s) /\
       (forallb (fun c => isClose (point (store s c)) (point (store s c)))
                (corners s) = true ->
        far (store s) (point (store s c1)) (c0 :: tm) = true ->
        far (store s) (point (store s c3)) bm = true ->
        getOutlineSides s
        = Normal [c0 :: tm ++ [c1]; [c1; c2]; c2 :: bm ++ [c3]; [c3; c0]])).
Proof.
  split; [|split].
  - intros s. now destruct (arrangeContents_fields s) as (_ & _ & _ & _ & _ & _ & _ & H).
  - intros s c.
    destruct (arrangeContents_fields s) as (_ & _ & _ & _ & _ & _ & _ & ->).
    unfold splittable, skipsCurve. rewrite filter_In, negb_true_iff, orb_false_iff.
    tauto.
  - intros src es. cbv zeta.
    destruct (edits_shape es _ _ _ (construct_shape src)) as (tm & bm & Hs).
    destruct Hs as (Hc & Ho & Hr & _ & _ & Hm).
    exists 0, 1, 2, 3, tm, bm.
    assert (Hmg : midpointGroup (edits (fst (construct src)) es)
                  = openCurves (0 :: tm ++ [1]) ++ openCurves (2 :: bm ++ [3])).
    { rewrite Hm, Hc, Ho. apply splittable_frame.
      intros r Hin. now apply Hr. }
    split; [exact Hc|]. split; [exact Ho|].
    split; [rewrite Ho; apply closedCurves_frame|].
    split; [exact Hmg|].
    split; [|split].
    + rewrite Hm, Hc. unfold splittable. rewrite filter_In.
      intros [_ Hf]. discriminate.
    + rewrite Hm, Hc. unfold splittable. rewrite filter_In.
      intros [_ Hf]. discriminate.
    + intros Hrefl Htop Hbottom.
      apply (getOutlineSides_runs _ 0 1 2 3 tm [] bm []); auto.
Qed.

(** C8 (amended).  An edit made through an existing handle is never
    refused: whatever the corner points are, the frame after the edit is
    the frame as the handle left it, the [corners] array is untouched, and
    the callback has run an arrangement pass on that frame. *)
Theorem edit_is_never_refused (s s' : StretchyPath) (e : Edit) :
  applyEdit s e = Some s' ->
  outline (fst (edit s e)) = outline s' /\
  store (fst (edit s e)) = store s' /\
  framePoints (fst (edit s e)) = framePoints s' /\
  corners (fst (edit s e)) = corners s /\
  exists s'', edit s e = arrangeContents s'' /\
              outline s'' = outline s' /\ store s'' = store s'.
Proof.
  intros Ha.
  assert (H : exists s'', edit s e = arrangeContents s'' /\
                outline s'' = outline s' /\ store s'' = store s' /\
                corners s'' = corners s).
  { destruct e as [r p|curve p]; cbn in Ha |- *.
    - destruct (existsb (Nat.eqb r) (segmentGroup s ++ handles s)); [|discriminate].
      injection Ha as <-. eexists; split; [reflexivity|]. auto.
    - destruct (existsb (Curve_eqb curve) (midpointGroup s)); [|discriminate].
      injection Ha as <-. eexists; split; [reflexivity|]. auto. }
  destruct H as (s'' & He & Ho & Hst & Hc).
  destruct (arrangeContents_fields s'') as (_ & H2 & H3 & H4 & _).
  rewrite He. unfold framePoints. rewrite H2, H3, H4, Ho, Hst, Hc.
  repeat split; eauto.
Qed.

End Edits.

(** C10 (as stated, refuted).  The top curve of the square frame is split
    at (10,0), the point of corner 1.  The walk closes its first side on
    the new vertex 4, so that [sides[1]], the right side, runs from
    vertex 4 over corner 1 to corner 2; its curve from vertex 4 to corner 1
    does not start at [corners[1]] and has a splitter handle. *)
Lemma splitter_handle_on_right_side :
  let s := fst (@edit polylineEngine squareStretchy
                  (MidpointInserted (0, 1) (mkPoint 10 0))) in
  corners s = [0; 1; 2; 3] /\
  outline s = [0; 4; 1; 2; 3] /\
  framePoints s = [mkPoint 0 0; mkPoint 10 0; mkPoint 10 0;
                   mkPoint 10 10; mkPoint 0 10] /\
  @getOutlineSides polylineEngine s
    = Normal [[0; 4]; [4; 1; 2]; [2; 3]; [3; 0]] /\
  midpointGroup s = [(0, 4); (4, 1); (2, 3)] /\
  midpointGroup (fst (@arrangeContents polylineEngine s))
    = [(0, 4); (4, 1); (2, 3)] /\
  exists right,
    nth_error [[0; 4]; [4; 1; 2]; [2; 3]; [3; 0]] 1 = Some right /\
    In (4, 1) (openCurves right) /\
    In (4, 1) (midpointGroup s).
Proof.
  cbv zeta.
  repeat (split; [vm_compute; reflexivity|]).
  exists [4; 1; 2]. split; [reflexivity|].
  split; [left; reflexivity|].
  vm_compute. right; left; reflexivity.
Qed.

Lemma splitter_handles_on_corner_runs_witness :
  let s := @edits polylineEngine (fst (@construct polylineEngine squareArt))
             [MidpointInserted (0, 1) (mkPoint 5 0)] in
  midpointGroup s = [(0, 4); (4, 1); (2, 3)] /\
  @getOutlineSides polylineEngine s
    = Normal [[0; 4; 1]; [1; 2]; [2; 3]; [3; 0]].
Proof.
  cbv zeta.
  destruct (proj2 (proj2 (@splitter_handles_on_corner_runs polylineEngine))
              squareArt [MidpointInserted (0, 1) (mkPoint 5 0)])
    as (c0 & c1 & c2 & c3 & tm & bm & Hc & Ho & _ & Hm & _ & _ & Hsides).
  cbv zeta in *.
  assert (Hc' : [0; 1; 2; 3] = [c0; c1; c2; c3])
    by (rewrite <- Hc; vm_compute; reflexivity).
  injection Hc' as <- <- <- <-.
  assert (Ho' : [0; 4; 1; 2; 3] = 0 :: tm ++ 1 :: 2 :: bm ++ [3])
    by (etransitivity; [|exact Ho]; vm_compute; reflexivity).
  assert (Htm : tm = [4] /\ bm = []).
  { injection Ho' as Ho'.
    destruct tm as [|t1 [|t2 [|t3 [|t4 tm]]]]; try discriminate Ho';
      cbn in Ho'; try (destruct tm; discriminate Ho').
    injection Ho' as <- Ho'.
    destruct bm as [|b1 [|b2 bm]]; try discriminate Ho'; auto. }
  destruct Htm as [-> ->].
  split; [exact Hm|].
  apply Hsides; vm_compute; reflexivity.
Defined.

(** C8 (as stated, refuted).  [foldedStretchy] is the square frame with
    corner 2 on the point of corner 0: the corners lie on three distinct
    points.  [onChangeComplete] takes the frame as it is: the decomposition
    returns four sides, the pass runs to its end and puts new artwork on
    display (the point (10,10) of the artwork, shown at (10,10) before, is
    shown at (0,0)), and the frame stays as it was moved.  Dragging
    corner 2 of the square to (0,0) ends in this call.  With the curve
    from corner 2 to corner 3 of that frame split at (0,5), [onDragEnd]
    keeps the new vertex and its pass runs to its end as well. *)
Lemma coincident_corners_are_not_refused :
  let moved := @onChangeComplete polylineEngine foldedStretchy in
  let split := @onDragEnd polylineEngine foldedSplitStretchy (2, 3) 4 in
  @someClose polylineEngine (cornerPoints squareStretchy) = false /\
  cornerPoints foldedStretchy
    = [mkPoint 0 0; mkPoint 10 0; mkPoint 0 0; mkPoint 0 10] /\
  @someClose polylineEngine (cornerPoints foldedStretchy) = true /\
  @getOutlineSides polylineEngine foldedStretchy
    = Normal [[0; 1]; [1; 2]; [2; 3]; [3; 0]] /\
  snd moved = Normal tt /\
  framePoints (fst moved)
    = [mkPoint 0 0; mkPoint 10 0; mkPoint 0 0; mkPoint 0 10] /\
  framePoints squareStretchy
    = [mkPoint 0 0; mkPoint 10 0; mkPoint 10 10; mkPoint 0 10] /\
  @edit polylineEngine squareStretchy (CornerMoved 2 (mkPoint 0 0)) = moved /\
  @someClose polylineEngine (cornerPoints foldedSplitStretchy) = true /\
  @getOutlineSides polylineEngine foldedSplitStretchy
    = Normal [[0; 1]; [1; 2]; [2; 4; 3]; [3; 0]] /\
  snd split = Normal tt /\
  outline (fst split) = [0; 1; 2; 4; 3] /\
  @edit polylineEngine (fst moved) (MidpointInserted (2, 3) (mkPoint 0 5))
    = split /\
  (exists d p, displayPath foldedStretchy = Some [d] /\
               nth_error (map point (segments d)) 2 = Some p /\
               p =p= mkPoint 10 10) /\
  (exists d p, displayPath (fst moved) = Some [d] /\
               nth_error (map point (segments d)) 2 = Some p /\
               p =p= mkPoint 0 0).
Proof.
  cbv zeta.
  repeat (split; [vm_compute; reflexivity|]).
  split.
  - eexists; eexists; split; [vm_compute; reflexivity|].
    split; [reflexivity|]. split; reflexivity.
  - eexists; eexists; split; [vm_compute; reflexivity|].
    split; [reflexivity|]. split; reflexivity.
Qed.

Lemma edit_is_never_refused_witness :
  applyEdit squareStretchy (CornerMoved 2 (mkPoint 0 0))
    = Some (SegmentHandle_drag squareStretchy 2 (mkPoint 0 0)) /\
  framePoints (fst (@edit polylineEngine squareStretchy
                      (CornerMoved 2 (mkPoint 0 0))))
    = framePoints (SegmentHandle_drag squareStretchy 2 (mkPoint 0 0)).
Proof.
  split; [vm_compute; reflexivity|].
  apply (@edit_is_never_refused polylineEngine squareStretchy
           (SegmentHandle_drag squareStretchy 2 (mkPoint 0 0))
           (CornerMoved 2 (mkPoint 0 0))).
  vm_compute; reflexivity.
Defined.

(** A midpoint inserted on the top side and one on the bottom side: the
    corners stay, two intermediate vertices appear. *)
Example midpoints_add_vertices :
  let s := @edits polylineEngine squareStretchy
             [MidpointInserted (0, 1) (mkPoint 5 0);
              CornerMoved 4 (mkPoint 6 0);
              MidpointInserted (2, 3) (mkPoint 5 10)] in
  corners s = [0; 1; 2; 3] /\
  outline s = [0; 4; 1; 2; 5; 3] /\
  intermediate s = [4; 5] /\
  midpointGroup s = [(0, 4); (4, 1); (2, 5); (5, 3)] /\
  @getOutlineSides polylineEngine s
    = Normal [[0; 4; 1]; [1; 2]; [2; 5; 3]; [3; 0]].
Proof.
  cbv zeta. repeat split; vm_compute; reflexivity.
Qed.

(** Dragging the corner at (10,10) of the square to (20,10) moves the
    artwork's point (10,10) there. *)
Example dragged_corner_carries_artwork :
  let s := fst (@edit polylineEngine squareStretchy
                  (CornerMoved 2 (mkPoint 20 10))) in
  exists d, displayPath s = Some [d] /\
            exists p, nth_error (map point (segments d)) 2 = Some p /\
                      p =p= mkPoint 20 10.
Proof.
  cbv zeta. eexists; split; [vm_compute; reflexivity|].
  eexists; split; [reflexivity|]. split; reflexivity.
Qed.

(* ================================================================== *)
(** * More on the decomposition walk *)
(* ================================================================== *)

Lemma shift_skipn {A : Type} (targets : list (option A)) :
  forall n, shift (skipn n targets) = (nth n targets None, skipn (S n) targets).
Proof.
  induction targets as [|a targets IH]; intros [|n]; cbn; try reflexivity.
  apply IH.
Qed.

Lemma nth_Some_nth_error {A : Type} (targets : list (option A)) :
  forall n p, nth n targets None = Some p -> nth_error targets n = Some (Some p).
Proof.
  induction targets as [|a targets IH]; intros [|n] p H; cbn in *;
    try discriminate.
  - now subst.
  - now apply IH.
Qed.

Section WalkInvariant.

Context {E : Engine}.

Variable st : Store.

(** A property of the loop variables that holds when the loop starts and
    is kept by both branches of the body holds when the loop ends. *)
Lemma walk_invariant
    (Inv : option Point -> list (option Point) -> Side -> list Side ->
           list SegRef -> Prop) :
  (forall t q g sides seg rest,
     Inv (Some t) q g sides (seg :: rest) ->
     isClose t (point (st seg)) = true ->
     Inv (fst (shift q)) (snd (shift q)) [seg] (sides ++ [g ++ [seg]]) rest) ->
  (forall t q g sides seg rest,
     Inv (Some t) q g sides (seg :: rest) ->
     isClose t (point (st seg)) = false ->
     Inv (Some t) q (g ++ [seg]) sides rest) ->
  forall l t q g sides out,
    Inv t q g sides l ->
    walk st t q g sides l = Normal out ->
    exists t' q' g', Inv t' q' g' out [].
Proof.
  intros Hclose Hfar.
  induction l as [|seg l IH]; intros t q g sides out Hinv Hw; cbn in Hw.
  - injection Hw as <-. eauto.
  - destruct t as [t|]; [|discriminate].
    destruct (isClose t (point (st seg))) eqn:Hc.
    + specialize (Hclose _ _ _ _ _ _ Hinv Hc).
      destruct (shift q) as [next q']. eapply IH; eassumption.
    + eapply IH; [|exact Hw]. now apply Hfar.
Qed.

Lemma far_app (p : Point) (l1 l2 : list SegRef) :
  far st p (l1 ++ l2) = far st p l1 && far st p l2.
Proof. apply forallb_app. Qed.

Lemma WalkInv_start (t : option Point) (q : list (option Point))
    (full : list SegRef) :
  WalkInv st (t :: q) full t q [] [] full.
Proof.
  unfold WalkInv. cbn. repeat split; auto.
  - intros k side Hk. destruct k; discriminate.
  - now left.
  - intros side Hk. discriminate.
Qed.

Lemma WalkInv_close (targets : list (option Point)) (full : list SegRef) :
  forall t q g sides seg rest,
    WalkInv st targets full (Some t) q g sides (seg :: rest) ->
    isClose t (point (st seg)) = true ->
    WalkInv st targets full (fst (shift q)) (snd (shift q)) [seg]
      (sides ++ [g ++ [seg]]) rest.
Proof.
  intros t q g sides seg rest (I1 & I2 & I3 & I4 & I5 & I6 & I7 & I8) Hc.
  assert (Hlen : List.length (sides ++ [g ++ [seg]]) = S (List.length sides))
    by apply last_length.
  unfold WalkInv. rewrite Hlen, I3, shift_skipn. cbn [fst snd].
  split; [|split; [|split; [|split; [|split; [|split; [|split]]]]]].
  - rewrite map_app, concat_app. cbn [map concat].
    rewrite removelast_last, app_nil_r, <- I1.
    now rewrite <- !app_assoc.
  - reflexivity.
  - reflexivity.
  - intros k side Hk.
    destruct (Nat.lt_ge_cases k (List.length sides)) as [Hlt|Hge].
    + rewrite nth_error_app1 in Hk by assumption. now apply I4.
    + rewrite nth_error_app2 in Hk by assumption.
      destruct (k - List.length sides) as [|d] eqn:Hd;
        [|destruct d; discriminate].
      cbn in Hk. injection Hk as <-.
      assert (k = List.length sides) by lia. subst k.
      exists t, seg. rewrite removelast_last.
      split; [now apply nth_Some_nth_error|].
      split; [reflexivity|]. split; [assumption|].
      unfold passedOver. rewrite removelast_last. now apply I5.
  - intros p _. reflexivity.
  - right. exists sides, g, seg, []. auto.
  - intros side Hk. destruct sides as [|a sides'].
    + cbn in Hk. injection Hk as <-. exists rest.
      cbn in I1. rewrite <- I1. now rewrite <- app_assoc.
    + cbn in Hk. apply I7. exact Hk.
  - intros _. right. eauto.
Qed.

Lemma WalkInv_far (targets : list (option Point)) (full : list SegRef) :
  forall t q g sides seg rest,
    WalkInv st targets full (Some t) q g sides (seg :: rest) ->
    isClose t (point (st seg)) = false ->
    WalkInv st targets full (Some t) q (g ++ [seg]) sides rest.
Proof.
  intros t q g sides seg rest (I1 & I2 & I3 & I4 & I5 & I6 & I7 & I8) Hc.
  assert (Hseg : far st t [seg] = true) by (cbn; now rewrite Hc).
  unfold WalkInv.
  split; [|split; [|split; [|split; [|split; [|split; [|split]]]]]];
    try assumption.
  - rewrite <- I1. now rewrite <- !app_assoc.
  - intros p Hp. injection Hp as <-.
    specialize (I5 t eq_refl).
    destruct (List.length sides =? 0) eqn:Hn.
    + now rewrite far_app, I5, Hseg.
    + destruct I6 as [->|(front & pre & x & post & _ & ->)]; [discriminate|].
      cbn [tl app] in *. now rewrite far_app, I5, Hseg.
  - destruct I6 as [->|(front & pre & x & post & -> & ->)]; [now left|].
    right. exists front, pre, x, (post ++ [seg]). auto.
  - intros H; discriminate.
Qed.

(** The state in which the loop ends when it ends normally. *)
Lemma walk_final (t : option Point) (q : list (option Point))
    (full : list SegRef) (out : list Side) :
  walk st t q [] [] full = Normal out ->
  exists t' q' g', WalkInv st (t :: q) full t' q' g' out [].
Proof.
  intros Hw.
  apply (walk_invariant (WalkInv st (t :: q) full)
           (WalkInv_close _ _) (WalkInv_far _ _) full t q [] [] out);
    [apply WalkInv_start|exact Hw].
Qed.

(** Once the targets are used up, one more segment ends the loop in a
    TypeError. *)
Lemma walk_exhausted (targets : list (option Point)) (pre : list SegRef) :
  forall t q g sides out x post,
    t = nth (List.length sides) targets None ->
    q = skipn (S (List.length sides)) targets ->
    walk st t q g sides pre = Normal out ->
    List.length targets <= List.length out ->
    walk st t q g sides (pre ++ x :: post) = Throw TypeError.
Proof.
  induction pre as [|seg pre IH]; intros t q g sides out x post Ht Hq Hw Hlen.
  - cbn in Hw. injection Hw as <-. cbn.
    rewrite nth_overflow in Ht by assumption. now subst t.
  - cbn in Hw |- *. destruct t as [t|]; [|discriminate].
    destruct (isClose t (point (st seg))).
    + rewrite Hq, shift_skipn in Hw |- *.
      eapply IH; [| |exact Hw|exact Hlen];
        now rewrite last_length.
    + eapply IH; eassumption.
Qed.

(** A loop that ends in an exception ends in a TypeError, on a segment
    before which the loop would have ended normally with the target
    [undefined]. *)
Lemma walk_thrown (l : list SegRef) :
  forall t q g sides e,
    walk st t q g sides l = Throw e ->
    e = TypeError /\
    exists pre x post out,
      l = pre ++ x :: post /\
      walk st t q g sides pre = Normal out /\
      forall targets,
        t = nth (List.length sides) targets None ->
        q = skipn (S (List.length sides)) targets ->
        nth (List.length out) targets None = None.
Proof.
  induction l as [|seg l IH]; intros t q g sides e Hw; cbn in Hw.
  - discriminate.
  - destruct t as [t|].
    + destruct (isClose t (point (st seg))) eqn:Hc.
      * destruct (shift q) as [next q'] eqn:Hs.
        destruct (IH _ _ _ _ _ Hw) as (He & pre & x & post & out & -> & Hpre & Ht).
        split; [exact He|].
        exists (seg :: pre), x, post, out. split; [reflexivity|].
        split; [cbn; now rewrite Hc, Hs|].
        intros targets Ht0 Hq0. apply Ht.
        -- rewrite last_length.
           rewrite Hq0, shift_skipn in Hs. now injection Hs as <- _.
        -- rewrite last_length.
           rewrite Hq0, shift_skipn in Hs. now injection Hs as _ <-.
      * destruct (IH _ _ _ _ _ Hw) as (He & pre & x & post & out & -> & Hpre & Ht).
        split; [exact He|].
        exists (seg :: pre), x, post, out. split; [reflexivity|].
        split; [cbn; now rewrite Hc|]. exact Ht.
    + injection Hw as <-. split; [reflexivity|].
      exists [], seg, l, sides. split; [reflexivity|]. split; [reflexivity|].
      intros targets Ht _. now symmetry.
Qed.

End WalkInvariant.

Lemma awaitedTargets_corners (s : StretchyPath) (c : SegRef) (cs : list SegRef) :
  corners s = c :: cs ->
  awaitedTargets s = map (fun r => Some (point (store s r))) (cs ++ [c]).
Proof.
  intros Hc. unfold awaitedTargets, initialTargets. rewrite Hc. cbn.
  destruct cs as [|c' cs]; cbn; [reflexivity|].
  now rewrite map_app.
Qed.

Lemma awaitedTargets_none (s : StretchyPath) :
  corners s = [] -> awaitedTargets s = [None].
Proof.
  intros Hc. unfold awaitedTargets, initialTargets. now rewrite Hc.
Qed.

Lemma awaitedTargets_length (s : StretchyPath) :
  corners s <> [] ->
  List.length (awaitedTargets s) = List.length (corners s) /\
  forall k, k < List.length (corners s) ->
            exists p, nth k (awaitedTargets s) None = Some p.
Proof.
  intros Hne. destruct (corners s) as [|c cs] eqn:Hc; [contradiction|].
  rewrite (awaitedTargets_corners s c cs Hc).
  rewrite length_map, last_length. split; [reflexivity|].
  intros k Hk.
  exists (point (store s (nth k (cs ++ [c]) c))).
  rewrite (nth_indep _ None (Some (point (store s c)))).
  - apply (map_nth (fun r => Some (point (store s r)))).
  - rewrite length_map, last_length. exact Hk.
Qed.

Section DecompositionWalk.

Context {E : Engine}.

Lemma walkOutline_final (s : StretchyPath) (s0 : SegRef) (o : list SegRef)
    (sides : list Side) :
  outline s = s0 :: o ->
  walkOutline s = Normal sides ->
  exists t q g,
    WalkInv (store s) (awaitedTargets s) (outline s ++ [s0]) t q g sides [].
Proof.
  intros Ho Hw. unfold walkOutline, segmentList in Hw. rewrite Ho in Hw.
  unfold awaitedTargets. rewrite Ho.
  destruct (initialTargets s) as [t q]. cbn [fst snd].
  now apply walk_final.
Qed.

Lemma walkOutline_nonempty (s : StretchyPath) (sides : list Side) :
  walkOutline s = Normal sides -> exists s0 o, outline s = s0 :: o.
Proof.
  unfold walkOutline, segmentList.
  destruct (outline s) as [|s0 o]; [discriminate|eauto].
Qed.

Lemma walk_count (st : Store) (t : option Point) (q : list (option Point))
    (l : list SegRef) (out : list Side) :
  walk st t q [] [] l = Normal out ->
  List.length out <= List.length (t :: q) /\
  forall k, k < List.length out -> exists p, nth_error (t :: q) k = Some (Some p).
Proof.
  intros Hw.
  destruct (walk_final st t q l out Hw) as (t' & q' & g' & Hinv).
  destruct Hinv as (_ & _ & _ & I4 & _).
  assert (Hk : forall k, k < List.length out ->
                 exists p, nth_error (t :: q) k = Some (Some p)).
  { intros k Hlt. destruct (nth_error out k) as [side|] eqn:Hside.
    - destruct (I4 k side Hside) as (p & x & Hp & _). eauto.
    - apply nth_error_None in Hside. lia. }
  split; [|exact Hk].
  destruct (List.length out) as [|n] eqn:Hn; [lia|].
  destruct (Hk n (Nat.lt_succ_diag_r n)) as (p & Hp).
  assert (n < List.length (t :: q)) by (apply nth_error_Some; congruence).
  lia.
Qed.

(** X1.  The loop never closes more sides than there are corners, so with
    four corners the check [sides.length !== 4] can only fail for too few
    sides: ['failed to get sides'] always means that fewer than four corners
    were matched. *)
Theorem sides_never_exceed_corners (s : StretchyPath) :
  (forall sides, walkOutline s = Normal sides ->
                 List.length sides <= List.length (corners s)) /\
  (List.length (corners s) = 4 ->
   getOutlineSides s = Throw FailedToGetSides ->
   exists sides, walkOutline s = Normal sides /\ List.length sides < 4).
Proof.
  assert (Hbound : forall sides, walkOutline s = Normal sides ->
                     List.length sides <= List.length (corners s)).
  { intros sides Hw.
    destruct (walkOutline_nonempty s sides Hw) as (s0 & o & Ho).
    unfold walkOutline, segmentList in Hw. rewrite Ho in Hw.
    destruct (initialTargets s) as [t q] eqn:Hit.
    destruct (walk_count _ _ _ _ _ Hw) as (Hlen & Hk).
    assert (HT : awaitedTargets s = t :: q)
      by (unfold awaitedTargets; now rewrite Hit).
    destruct (corners s) as [|c cs] eqn:Hc.
    - rewrite (awaitedTargets_none s Hc) in HT.
      destruct (List.length sides) as [|n]; [lia|].
      destruct (Hk 0 (Nat.lt_0_succ n)) as (p & Hp).
      rewrite <- HT in Hp. discriminate.
    - assert (Hne : corners s <> []) by (rewrite Hc; discriminate).
      destruct (awaitedTargets_length s Hne) as (HL & _).
      rewrite HT, Hc in HL. lia. }
  split; [exact Hbound|].
  intros H4 Hg.
  pose proof (getOutlineSides_outcome s) as Ho. rewrite Hg in Ho.
  destruct Ho as (sides & Hw & Hne).
  exists sides. split; [exact Hw|].
  specialize (Hbound sides Hw). lia.
Qed.

(** X2.  With four corners, whenever [getOutlineSides] returns, the walk
    has closed its fourth side on the repeated first segment: the first side
    starts and the last side ends with the first segment of the outline,
    and the sides without their closing segments concatenate to the segment
    sequence of the outline - nothing is lost, repeated or reordered. *)
Theorem returned_sides_cover_outline (s : StretchyPath) (sides : list Side) :
  List.length (corners s) = 4 ->
  getOutlineSides s = Normal sides ->
  concat (map (@removelast SegRef) sides) = outline s /\
  exists s0 rest pre,
    hd_error (outline s) = Some s0 /\
    nth_error sides 0 = Some (s0 :: rest) /\
    nth_error sides 3 = Some (pre ++ [s0]).
Proof.
  intros H4 Hg.
  pose proof (getOutlineSides_outcome s) as Ho. rewrite Hg in Ho.
  destruct Ho as (Hw & Hlen).
  destruct (walkOutline_nonempty s sides Hw) as (s0 & o & Hout).
  destruct (walkOutline_final s s0 o sides Hout Hw) as (t & q & g & Hinv).
  destruct Hinv as (I1 & I2 & _ & I4 & _ & I6 & I7 & I8).
  assert (Hne : corners s <> []) by (intros Hc; rewrite Hc in H4; discriminate).
  destruct (awaitedTargets_length s Hne) as (HL & _).
  rewrite nth_overflow in I2 by lia.
  destruct (I8 I2) as [->|(x & ->)]; [discriminate|].
  rewrite app_nil_r in I1. apply app_inj_tail in I1 as (Hcover & ->).
  split; [exact Hcover|].
  destruct I6 as [->|(front & pre & x & post & Hs & Hgx)]; [discriminate|].
  injection Hgx as <- <-.
  exists s0.
  destruct (nth_error sides 0) as [side|] eqn:H0;
    [|apply nth_error_None in H0; lia].
  destruct (I7 side eq_refl) as (rest' & Hfull).
  destruct (I4 0 side H0) as (p & x & _ & Hside & _).
  destruct side as [|y side'];
    [destruct (removelast (@nil SegRef)); discriminate|].
  rewrite Hout in Hfull. cbn in Hfull. injection Hfull as <- _.
  exists side', pre. rewrite Hout. repeat split.
  assert (Hf : List.length front = 3)
    by (rewrite Hs, last_length in Hlen; lia).
  rewrite Hs, nth_error_app2 by lia. now rewrite Hf.
Qed.

(** X3.  Each returned side was closed on the first segment within
    tolerance of the corner it was waiting for: side [k] ends on a segment
    within tolerance of corner [(k+1) mod 4], and none of the segments
    tested before it on that side is. *)
Theorem side_closes_on_first_match (s : StretchyPath) (sides : list Side)
    (c0 c1 c2 c3 : SegRef) :
  corners s = [c0; c1; c2; c3] ->
  getOutlineSides s = Normal sides ->
  forall k side,
    nth_error sides k = Some side ->
    let corner := point (store s (nth (S k mod 4) (corners s) c0)) in
    exists x, side = removelast side ++ [x] /\
              isClose corner (point (store s x)) = true /\
              far (store s) corner (passedOver k side) = true.
Proof.
  intros Hc Hg k side Hk.
  pose proof (getOutlineSides_outcome s) as Ho. rewrite Hg in Ho.
  destruct Ho as (Hw & Hlen).
  destruct (walkOutline_nonempty s sides Hw) as (s0 & o & Hout).
  destruct (walkOutline_final s s0 o sides Hout Hw) as (t & q & g & Hinv).
  destruct Hinv as (_ & _ & _ & I4 & _).
  destruct (I4 k side Hk) as (p & x & Hp & Hside & Hclose & Hfar).
  rewrite (awaitedTargets_corners s c0 [c1; c2; c3] Hc) in Hp.
  assert (Hk4 : k < 4).
  { rewrite <- Hlen. apply nth_error_Some. congruence. }
  cbv zeta. rewrite Hc. exists x.
  destruct k as [|[|[|[|k]]]]; try lia;
    cbn in Hp; injection Hp as <-; auto.
Qed.

(** X4.  With a non-empty outline and at least one corner,
    [getOutlineSides] ends in a TypeError exactly when as many sides as
    there are corners have been closed before the last segment of the walk:
    the next segment is then tested against an [undefined] target.  No
    other exception than this TypeError and ['failed to get sides'] comes
    out of [getOutlineSides]. *)
Theorem TypeError_iff_corners_used_up (s : StretchyPath) (s0 : SegRef)
    (o : list SegRef) :
  corners s <> [] ->
  outline s = s0 :: o ->
  (getOutlineSides s = Throw TypeError <->
   exists pre x post out,
     outline s ++ [s0] = pre ++ x :: post /\
     walk (store s) (fst (initialTargets s)) (snd (initialTargets s)) [] [] pre
       = Normal out /\
     List.length out = List.length (corners s)) /\
  (forall e, getOutlineSides s = Throw e ->
             e = TypeError \/ e = FailedToGetSides).
Proof.
  intros Hne Hout.
  split;
    [|intros e He; pose proof (getOutlineSides_outcome s) as Ho;
      rewrite He in Ho; destruct e; auto; contradiction].
  destruct (awaitedTargets_length s Hne) as (HL & HSome).
  assert (Hwo : walkOutline s
                = walk (store s) (fst (initialTargets s))
                    (snd (initialTargets s)) [] [] (outline s ++ [s0])).
  { unfold walkOutline, segmentList. rewrite Hout.
    now destruct (initialTargets s). }
  split.
  - intros Hg.
    pose proof (getOutlineSides_outcome s) as Ho. rewrite Hg in Ho.
    rewrite Hwo in Ho.
    destruct (walk_thrown _ _ _ _ _ _ _ Ho)
      as (_ & pre & x & post & out & Hl & Hpre & Ht).
    exists pre, x, post, out. split; [exact Hl|]. split; [exact Hpre|].
    specialize (Ht (awaitedTargets s) eq_refl eq_refl).
    destruct (walk_count _ _ _ _ _ Hpre) as (Hle & _).
    change (fst (initialTargets s) :: snd (initialTargets s))
      with (awaitedTargets s) in Hle.
    destruct (Nat.lt_ge_cases (List.length out) (List.length (corners s)))
      as [Hlt|Hge]; [|lia].
    destruct (HSome _ Hlt) as (p & Hp). congruence.
  - intros (pre & x & post & out & Hl & Hpre & Hlen).
    unfold getOutlineSides. rewrite Hwo, Hl.
    rewrite (walk_exhausted (store s) (awaitedTargets s) pre _ _ _ _ out);
      auto.
    lia.
Qed.

End DecompositionWalk.

Lemma returned_sides_cover_outline_witness :
  @getOutlineSides polylineEngine midpointStretchy
    = Normal [[0; 4; 1]; [1; 2]; [2; 5; 3]; [3; 0]] /\
  concat (map (@removelast SegRef) [[0; 4; 1]; [1; 2]; [2; 5; 3]; [3; 0]])
    = outline midpointStretchy /\
  exists s0 rest pre,
    hd_error (outline midpointStretchy) = Some s0 /\
    nth_error [[0; 4; 1]; [1; 2]; [2; 5; 3]; [3; 0]] 0 = Some (s0 :: rest) /\
    nth_error [[0; 4; 1]; [1; 2]; [2; 5; 3]; [3; 0]] 3 = Some (pre ++ [s0]).
Proof.
  split; [vm_compute; reflexivity|].
  apply (@returned_sides_cover_outline polylineEngine midpointStretchy
           [[0; 4; 1]; [1; 2]; [2; 5; 3]; [3; 0]]).
  - vm_compute; reflexivity.
  - vm_compute; reflexivity.
Defined.

Lemma side_closes_on_first_match_witness :
  corners midpointStretchy = [0; 1; 2; 3] /\
  exists x, [0; 4; 1] = removelast [0; 4; 1] ++ [x] /\
            @isClose polylineEngine (point (store midpointStretchy 1))
              (point (store midpointStretchy x)) = true /\
            @far polylineEngine (store midpointStretchy)
              (point (store midpointStretchy 1)) [0; 4] = true.
Proof.
  split; [vm_compute; reflexivity|].
  apply (@side_closes_on_first_match polylineEngine midpointStretchy
           [[0; 4; 1]; [1; 2]; [2; 5; 3]; [3; 0]] 0 1 2 3
           ltac:(vm_compute; reflexivity) ltac:(vm_compute; reflexivity)
           0 [0; 4; 1] eq_refl).
Defined.

Lemma TypeError_iff_corners_used_up_witness :
  corners dotStretchy <> [] /\
  outline dotStretchy = [0; 1; 2; 3] /\
  (@getOutlineSides polylineEngine dotStretchy = Throw TypeError <->
   exists pre x post out,
     outline dotStretchy ++ [0] = pre ++ x :: post /\
     @walk polylineEngine (store dotStretchy)
       (fst (initialTargets dotStretchy)) (snd (initialTargets dotStretchy))
       [] [] pre = Normal out /\
     List.length out = List.length (corners dotStretchy)) /\
  (forall e, @getOutlineSides polylineEngine dotStretchy = Throw e ->
             e = TypeError \/ e = FailedToGetSides).
Proof.
  split; [vm_compute; discriminate|].
  split; [vm_compute; reflexivity|].
  apply (@TypeError_iff_corners_used_up polylineEngine dotStretchy 0 [1; 2; 3]).
  - vm_compute; discriminate.
  - vm_compute; reflexivity.
Defined.

(* ================================================================== *)
(** * More on the arrangement pass and the markers *)
(* ================================================================== *)

Section ArrangementMore.

Context {E : Engine}.

Lemma arrangeTransform_frame (s s' : StretchyPath) (sides : list Side) :
  sourcePath s = sourcePath s' -> store s = store s' ->
  arrangeTransform s sides = arrangeTransform s' sides.
Proof.
  intros Hsrc Hst. unfold arrangeTransform. now rewrite Hsrc, Hst.
Qed.

(** X5.  An arrangement pass reads the source artwork and the frame
    (corners, outline, segment positions) and nothing else: two objects
    that agree on these end their pass the same way, with the same new
    display artwork and the same markers, whatever was on display before;
    the pass itself leaves the source artwork and the frame as they are. *)
Theorem arrangement_reads_source_and_frame (s s' : StretchyPath) :
  sourcePath s = sourcePath s' -> corners s = corners s' ->
  outline s = outline s' -> store s = store s' ->
  snd (arrangeContents s) = snd (arrangeContents s') /\
  (snd (arrangeContents s) = Normal tt ->
   displayPath (fst (arrangeContents s))
   = displayPath (fst (arrangeContents s'))) /\
  midpointGroup (fst (arrangeContents s))
  = midpointGroup (fst (arrangeContents s')) /\
  sourcePath (fst (arrangeContents s)) = sourcePath s /\
  corners (fst (arrangeContents s)) = corners s /\
  outline (fst (arrangeContents s)) = outline s /\
  store (fst (arrangeContents s)) = store s.
Proof.
  intros Hsrc Hc Ho Hst.
  destruct (arrangeContents_fields s) as (F1 & F2 & F3 & F4 & _ & _ & _ & F8).
  destruct (arrangeContents_fields s') as (_ & _ & _ & _ & _ & _ & _ & F8').
  assert (Hpass : snd (arrangeContents s) = snd (arrangeContents s') /\
                  (snd (arrangeContents s) = Normal tt ->
                   displayPath (fst (arrangeContents s))
                   = displayPath (fst (arrangeContents s')))).
  { unfold arrangeContents, arrangePath.
    rewrite (getOutlineSides_frame (updateMidpiontMarkers s)
               (updateMidpiontMarkers s')) by assumption.
    destruct (getOutlineSides (updateMidpiontMarkers s')) as [sides|e].
    - rewrite (arrangeTransform_frame (updateMidpiontMarkers s)
                 (updateMidpiontMarkers s') sides) by assumption.
      change (sourcePath (updateMidpiontMarkers s)) with (sourcePath s).
      change (sourcePath (updateMidpiontMarkers s')) with (sourcePath s').
      rewrite Hsrc.
      destruct (transformPathItem _ (sourcePath s')); cbn.
      + auto.
      + split; [reflexivity|discriminate].
    - cbn. split; [reflexivity|discriminate]. }
  destruct Hpass as (Hsnd & Hdisp).
  cbv zeta in *. rewrite F8, F8'.
  repeat split; try assumption.
  now rewrite Hc, Ho.
Qed.

End ArrangementMore.

(** [set_displayPath] changes the artwork on display and nothing else. *)
Lemma set_displayPath_frame (s : StretchyPath) (d : option CompoundPath) :
  sourcePath s = sourcePath (set_displayPath s d) /\
  corners s = corners (set_displayPath s d) /\
  outline s = outline (set_displayPath s d) /\
  store s = store (set_displayPath s d).
Proof. repeat split. Qed.

Lemma arrangement_reads_source_and_frame_witness :
  displayPath (fst (@arrangeContents polylineEngine midpointStretchy))
  = displayPath (fst (@arrangeContents polylineEngine
                        (set_displayPath midpointStretchy None))).
Proof.
  destruct (set_displayPath_frame midpointStretchy None)
    as (Hsrc & Hc & Ho & Hst).
  apply (@arrangement_reads_source_and_frame polylineEngine midpointStretchy
           (set_displayPath midpointStretchy None) Hsrc Hc Ho Hst).
  vm_compute; reflexivity.
Defined.

Lemma map_fst_combine_le {A B : Type} (l : list A) :
  forall l' : list B,
    List.length l <= List.length l' -> map fst (combine l l') = l.
Proof.
  induction l as [|a l IH]; intros [|b l'] H; cbn in *; try reflexivity; try lia.
  f_equal. apply IH. lia.
Qed.

(** Each segment of a closed path starts exactly one of its curves. *)
Lemma closedCurves_firsts (l : list SegRef) : map fst (closedCurves l) = l.
Proof.
  destruct l as [|s0 rest]; [reflexivity|].
  unfold closedCurves. apply map_fst_combine_le.
  rewrite last_length. cbn. lia.
Qed.

Lemma splitters_by_first_segment (crns : list SegRef) (c1 c3 : SegRef)
    (cs : list Curve) :
  nth_error crns 1 = Some c1 ->
  nth_error crns 3 = Some c3 ->
  List.length (filter (fun curve => negb (skipsCurve crns curve)) cs)
  = List.length (filter (fun x => negb ((x =? c1) || (x =? c3))) (map fst cs)).
Proof.
  intros H1 H3. induction cs as [|c cs IH]; cbn [filter map]; [reflexivity|].
  assert (Hc : skipsCurve crns c = (fst c =? c1) || (fst c =? c3))
    by (unfold skipsCurve, isCorner, segment1; now rewrite H1, H3).
  rewrite Hc.
  destruct (negb ((fst c =? c1) || (fst c =? c3))); cbn [List.length];
    now rewrite IH.
Qed.

Lemma filter_two_out (a b : SegRef) (l : list SegRef) :
  a <> b ->
  List.length (filter (fun x => negb ((x =? a) || (x =? b))) l)
  + count_occ Nat.eq_dec l a + count_occ Nat.eq_dec l b
  = List.length l.
Proof.
  intros Hab. induction l as [|x l IH]; cbn; [reflexivity|].
  destruct (Nat.eq_dec x a) as [Hxa|Hxa], (Nat.eq_dec x b) as [Hxb|Hxb].
  - congruence.
  - subst x. rewrite Nat.eqb_refl. cbn. lia.
  - subst x. rewrite Nat.eqb_refl, orb_true_r. cbn. lia.
  - apply Nat.eqb_neq in Hxa, Hxb. rewrite Hxa, Hxb. cbn. lia.
Qed.

(** X6.  On an outline whose segments are distinct objects and include
    [corners[1]] and [corners[3]], [updateMidpiontMarkers] leaves exactly
    two curves without a splitter handle: there are two handles fewer than
    the outline has segments. *)
Theorem two_curves_without_splitter (s : StretchyPath) (c1 c3 : SegRef) :
  NoDup (outline s) ->
  nth_error (corners s) 1 = Some c1 ->
  nth_error (corners s) 3 = Some c3 ->
  c1 <> c3 ->
  In c1 (outline s) -> In c3 (outline s) ->
  List.length (midpointGroup (updateMidpiontMarkers s)) + 2
  = List.length (outline s).
Proof.
  intros Hnd H1 H3 Hne Hin1 Hin3.
  unfold updateMidpiontMarkers, set_midpointGroup. cbn [midpointGroup].
  rewrite (splitters_by_first_segment (corners s) c1 c3) by assumption.
  rewrite closedCurves_firsts.
  pose proof (filter_two_out c1 c3 (outline s) Hne) as Hcount.
  pose proof (proj1 (NoDup_count_occ' Nat.eq_dec (outline s)) Hnd) as Hocc.
  rewrite (Hocc c1 Hin1), (Hocc c3 Hin3) in Hcount. lia.
Qed.

Lemma two_curves_without_splitter_witness :
  List.length (midpointGroup (updateMidpiontMarkers midpointStretchy)) + 2
  = List.length (outline midpointStretchy).
Proof.
  apply (two_curves_without_splitter midpointStretchy 1 3).
  - vm_compute. repeat constructor; cbn; intuition discriminate.
  - vm_compute; reflexivity.
  - vm_compute; reflexivity.
  - discriminate.
  - vm_compute; auto 10.
  - vm_compute; auto 10.
Defined.

(* ================================================================== *)
(** * More on the frame under edits *)
(* ================================================================== *)

Lemma insertAfter_In (a x : SegRef) (l : list SegRef) :
  In a l -> forall r, In r (insertAfter a x l) <-> r = x \/ In r l.
Proof.
  induction l as [|y l IH]; intros Ha r; [destruct Ha|].
  cbn. destruct (Nat.eqb_spec y a) as [->|Hne].
  - cbn. intuition congruence.
  - destruct Ha as [Ha|Ha]; [congruence|].
    cbn. rewrite (IH Ha r). intuition congruence.
Qed.

Lemma filter_insertAfter (f : SegRef -> bool) (a x : SegRef) (l : list SegRef) :
  f x = false -> filter f (insertAfter a x l) = filter f l.
Proof.
  intros Hx. induction l as [|y l IH]; [reflexivity|].
  cbn. destruct (y =? a); cbn.
  - now rewrite Hx.
  - now rewrite IH.
Qed.

Lemma frameShape_allocated (s : StretchyPath) (tm bm : list SegRef) :
  frameShape s tm bm -> forall r, In r (outline s) -> r < nextRef s.
Proof.
  intros (_ & Ho & Hr & Hn & _) r Hin. rewrite Ho in Hin.
  cbn in Hin. rewrite !in_app_iff in Hin. cbn in Hin. rewrite in_app_iff in Hin.
  cbn in Hin.
  assert (Hmid : In r (tm ++ bm) -> r < nextRef s) by (intros H; apply Hr in H; lia).
  rewrite in_app_iff in Hmid.
  intuition lia.
Qed.

Lemma frame_permutation (tm bm : list SegRef) :
  Permutation (0 :: 1 :: 2 :: 3 :: tm ++ bm) (0 :: tm ++ 1 :: 2 :: bm ++ [3]).
Proof.
  constructor.
  etransitivity; [|apply Permutation_middle]. constructor.
  etransitivity; [|apply Permutation_middle]. constructor.
  rewrite app_assoc. apply Permutation_cons_append.
Qed.

Lemma frameShape_NoDup (s : StretchyPath) (tm bm : list SegRef) :
  frameShape s tm bm -> NoDup (outline s).
Proof.
  intros (_ & Ho & Hr & _ & Hnd & _). rewrite Ho.
  apply (Permutation_NoDup (frame_permutation tm bm)).
  change (0 :: 1 :: 2 :: 3 :: tm ++ bm) with ([0; 1; 2; 3] ++ (tm ++ bm)).
  apply NoDup_app; [repeat constructor; cbn; lia|exact Hnd|].
  intros a Ha Hin. apply Hr in Hin. cbn in Ha. lia.
Qed.

Section EditsMore.

Context {E : Engine}.

Lemma edit_segmentGroup (s : StretchyPath) (e : Edit) :
  segmentGroup (fst (edit s e)) = segmentGroup s.
Proof.
  destruct e as [r p|curve p]; cbn [edit].
  - destruct (existsb (Nat.eqb r) (segmentGroup s ++ handles s)); [|reflexivity].
    unfold onChangeComplete.
    now destruct (arrangeContents_fields (SegmentHandle_drag s r p))
      as (_ & _ & _ & _ & _ & H6 & _).
  - destruct (existsb (Curve_eqb curve) (midpointGroup s)); [|reflexivity].
    cbn [CurveSplitterHandle_divide]. unfold onDragEnd.
    match goal with
    | |- context [arrangeContents ?X] =>
        now destruct (arrangeContents_fields X) as (_ & _ & _ & _ & _ & H6 & _)
    end.
Qed.

Lemma edits_segmentGroup (es : list Edit) :
  forall s, segmentGroup (edits s es) = segmentGroup s.
Proof.
  induction es as [|e es IH]; intros s; [reflexivity|].
  change (segmentGroup (edits (fst (edit s e)) es) = segmentGroup s).
  now rewrite IH, edit_segmentGroup.
Qed.

Lemma edit_outline (s : StretchyPath) (e : Edit) :
  nextRef s <= nextRef (fst (edit s e)) /\
  (outline (fst (edit s e)) = outline s \/
   exists a, outline (fst (edit s e)) = insertAfter a (nextRef s) (outline s)).
Proof.
  destruct e as [r p|curve p]; cbn [edit].
  - destruct (existsb (Nat.eqb r) (segmentGroup s ++ handles s)); [|cbn; auto].
    unfold onChangeComplete.
    destruct (arrangeContents_fields (SegmentHandle_drag s r p))
      as (_ & _ & H3 & _ & H5 & _).
    cbv zeta in *. rewrite H3, H5. cbn. auto.
  - destruct (existsb (Curve_eqb curve) (midpointGroup s)); [|cbn; auto].
    cbn [CurveSplitterHandle_divide]. unfold onDragEnd.
    match goal with
    | |- context [arrangeContents ?X] =>
        destruct (arrangeContents_fields X) as (_ & _ & H3 & _ & H5 & _)
    end.
    cbv zeta in *. rewrite H3, H5. cbn. split; [lia|]. right. eauto.
Qed.

Lemma edits_keep_old_vertices (es : list Edit) :
  forall (s : StretchyPath) (n : nat) (l : list SegRef),
    n <= nextRef s ->
    filter (fun r => r <? n) (outline s) = l ->
    filter (fun r => r <? n) (outline (edits s es)) = l.
Proof.
  induction es as [|e es IH]; intros s n l Hn Hl; cbn; [exact Hl|].
  destruct (edit_outline s e) as (Hnext & [Ho|(a & Ho)]).
  - apply IH; [lia|]. unfold SegRef in *. now rewrite Ho.
  - apply IH; [lia|]. unfold SegRef in *. rewrite Ho.
    rewrite filter_insertAfter; [exact Hl|].
    apply Nat.ltb_ge. exact Hn.
Qed.

(** X7.  Edits only ever add vertices to the frame.  From a frame all of
    whose segments exist already, any sequence of corner moves and midpoint
    insertions leads to an outline that, without the segments created
    since, is the outline it started from: no vertex is removed and the
    vertices keep their order. *)
Theorem edits_only_add_vertices (s : StretchyPath) (es : list Edit) :
  (forall r, In r (outline s) -> r < nextRef s) ->
  filter (fun r => r <? nextRef s) (outline (edits s es)) = outline s /\
  List.length (outline s) <= List.length (outline (edits s es)).
Proof.
  intros Hall.
  assert (Hf : filter (fun r => r <? nextRef s) (outline (edits s es))
               = outline s).
  { apply edits_keep_old_vertices; [lia|].
    apply filter_all. intros r Hr. apply Nat.ltb_lt. now apply Hall. }
  split; [exact Hf|].
  rewrite <- Hf at 1. apply filter_length_le.
Qed.

Lemma edit_handled (s : StretchyPath) (e : Edit) (tm bm : list SegRef) :
  frameShape s tm bm ->
  everyVertexHandled s ->
  everyVertexHandled (fst (edit s e)).
Proof.
  intros Hs (Hiff & Hnd).
  pose proof (frameShape_allocated s tm bm Hs) as Halloc.
  destruct Hs as (Hc & Ho & Hr & Hn & _ & Hm).
  destruct e as [r p|curve p]; cbn [edit].
  - destruct (existsb (Nat.eqb r) (segmentGroup s ++ handles s));
      [|split; assumption].
    unfold onChangeComplete.
    destruct (arrangeContents_fields (SegmentHandle_drag s r p))
      as (_ & _ & H3 & _ & _ & H6 & H7 & _).
    unfold everyVertexHandled. cbv zeta in *. rewrite H3, H6, H7. cbn.
    split; assumption.
  - destruct (existsb (Curve_eqb curve) (midpointGroup s)) eqn:Hex;
      [|split; assumption].
    apply existsb_exists in Hex as (c' & Hin & Heq).
    apply Curve_eqb_eq in Heq. subst c'.
    rewrite Hm in Hin. unfold splittable in Hin.
    apply filter_In in Hin as (Hin & _).
    assert (Ha : In (segment1 curve) (outline s)).
    { rewrite <- (closedCurves_firsts (outline s)).
      apply (in_map fst) in Hin. exact Hin. }
    cbn [CurveSplitterHandle_divide]. unfold onDragEnd.
    match goal with
    | |- context [arrangeContents ?X] =>
        destruct (arrangeContents_fields X)
          as (_ & _ & H3 & _ & _ & H6 & H7 & _)
    end.
    unfold everyVertexHandled. cbv zeta in *. rewrite H3, H6, H7. cbn.
    assert (Hfresh : ~ In (nextRef s) (segmentGroup s ++ handles s)).
    { intros Hin'. apply Hiff, Halloc in Hin'. lia. }
    split.
    + intros r. rewrite (insertAfter_In _ _ _ Ha r), app_assoc, in_app_iff.
      cbn. rewrite Hiff. intuition congruence.
    + rewrite app_assoc.
      apply (Permutation_NoDup (Permutation_cons_append _ (nextRef s))).
      now constructor.
Qed.

Lemma edits_handled (es : list Edit) :
  forall s tm bm,
    frameShape s tm bm ->
    everyVertexHandled s ->
    everyVertexHandled (edits s es).
Proof.
  induction es as [|e es IH]; intros s tm bm Hs Hh; cbn; [exact Hh|].
  destruct (edit_shape s e tm bm Hs) as (tm' & bm' & Hs').
  apply (IH _ tm' bm' Hs'). now apply (edit_handled s e tm bm).
Qed.

(** X8.  On a constructed StretchyPath, after any edits, every vertex of
    the frame has exactly one drag handle and every drag handle belongs to
    a vertex of the frame: the four of [createSegmentMarkers] and one from
    [onDragEnd] for each inserted midpoint. *)
Theorem every_vertex_has_one_handle (src : CompoundPath) (es : list Edit) :
  let s := edits (fst (construct src)) es in
  (forall r, In r (outline s) <-> In r (segmentGroup s ++ handles s)) /\
  NoDup (segmentGroup s ++ handles s) /\
  List.length (segmentGroup s ++ handles s) = List.length (outline s) /\
  segmentGroup s = corners s.
Proof.
  cbv zeta.
  pose proof (construct_shape src) as Hs0.
  assert (Hh0 : everyVertexHandled (fst (construct src))).
  { unfold construct.
    match goal with
    | |- everyVertexHandled (fst (arrangeContents ?X)) =>
        destruct (arrangeContents_fields X)
          as (_ & _ & H3 & _ & _ & H6 & H7 & _)
    end.
    unfold everyVertexHandled. cbv zeta in *. rewrite H3, H6, H7. cbn.
    split; [tauto|]. repeat constructor; cbn; lia. }
  destruct (edits_handled es _ _ _ Hs0 Hh0) as (Hiff & Hnd).
  destruct (edits_shape es _ _ _ Hs0) as (tm & bm & Hs).
  split; [exact Hiff|]. split; [exact Hnd|]. split.
  - apply Permutation_length, NoDup_Permutation.
    + exact Hnd.
    + exact (frameShape_NoDup _ _ _ Hs).
    + intros r. symmetry. apply Hiff.
  - rewrite edits_segmentGroup.
    destruct Hs as (-> & _).
    unfold construct.
    match goal with
    | |- segmentGroup (fst (arrangeContents ?X)) = _ =>
        destruct (arrangeContents_fields X) as (_ & _ & _ & _ & _ & -> & _)
    end.
    reflexivity.
Qed.

End EditsMore.

Lemma edits_only_add_vertices_witness :
  filter (fun r => r <? nextRef squareStretchy) (outline midpointStretchy)
  = outline squareStretchy /\
  List.length (outline squareStretchy) <= List.length (outline midpointStretchy).
Proof.
  apply (@edits_only_add_vertices polylineEngine squareStretchy
           [MidpointInserted (0, 1) (mkPoint 5 0);
            CornerMoved 4 (mkPoint 6 0);
            MidpointInserted (2, 3) (mkPoint 5 10)]).
  vm_compute. intros r [<-|[<-|[<-|[<-|[]]]]]; lia.
Defined.

(* ================================================================== *)
(** * The point mapping of arrangePath *)
(* ================================================================== *)

Lemma point_eq_trans (p q r : Point) : p =p= q -> q =p= r -> p =p= r.
Proof.
  intros [H1 H2] [H3 H4]. split; [now rewrite H1|now rewrite H2].
Qed.

Section PointMapping.

Context {E : Engine}.

(** The unit point [arrangePath] computes for [pt]. *)
Lemma arrangeTransform_unit (s : StretchyPath) (top right bottom left : Side)
    (pt : Point) :
  arrangeTransform s [top; right; bottom; left] pt =
  PaperHelpers.sandwichPathProjection
    (pathCurve (sidePath (store s) top))
    (pathCurve (Path_reverse (sidePath (store s) bottom)))
    (mkPoint
       ((px pt - rect_x (bounds (sourcePath s)))
          / rect_width (bounds (sourcePath s)))%Q
       ((py pt - rect_y (bounds (sourcePath s)))
          / rect_height (bounds (sourcePath s)))%Q).
Proof. reflexivity. Qed.

Lemma sandwich_at (topC bottomC : Curvelike) (unit tp bp : Point) :
  (exists p, getPointAt topC (px unit * curve_length topC)%Q = Some p /\
             p =p= tp) ->
  (exists p, getPointAt bottomC (px unit * curve_length bottomC)%Q = Some p /\
             p =p= bp) ->
  exists q, PaperHelpers.sandwichPathProjection topC bottomC unit = Some q /\
            ((py unit == 0)%Q -> q =p= tp) /\
            ((py unit == 1)%Q -> q =p= bp) /\
            ((px tp == px bp)%Q -> (px q == px tp)%Q) /\
            (py q == py tp + (py bp - py tp) * py unit)%Q.
Proof.
  intros (p1 & H1 & E1) (p2 & H2 & E2).
  unfold PaperHelpers.sandwichPathProjection. rewrite H1, H2.
  eexists; split; [reflexivity|].
  destruct E1 as [E1x E1y], E2 as [E2x E2y].
  repeat split.
  - apply (point_eq_trans _ p1); [now apply lerp_at_0|now split].
  - apply (point_eq_trans _ p1); [now apply lerp_at_0|now split].
  - apply (point_eq_trans _ p2); [now apply lerp_at_1|now split].
  - apply (point_eq_trans _ p2); [now apply lerp_at_1|now split].
  - intros Hx. cbn. rewrite E1x, E2x, Hx. ring.
  - cbn. rewrite E1y, E2y. ring.
Qed.

(** X9.  With bounds of non-zero width and height, and sides whose curves
    give their first point at arc length 0 and their last point at their
    full length, the point mapping of [arrangePath] takes the four corners
    of the source bounds to the ends of the top and bottom sides: top left
    to the start of [sides[0]], top right to its end, bottom right to the
    start of [sides[2]] and bottom left to its end.  (The projection is the
    sandwich projection as the specification describes it.) *)
Theorem bounds_corners_go_to_side_ends (s : StretchyPath)
    (top right bottom left : Side) (tl tr br bl : Point) :
  let b := bounds (sourcePath s) in
  ~ (rect_width b == 0)%Q ->
  ~ (rect_height b == 0)%Q ->
  pinsEnds (pathCurve (sidePath (store s) top)) tl tr ->
  pinsEnds (pathCurve (Path_reverse (sidePath (store s) bottom))) bl br ->
  let f := arrangeTransform s [top; right; bottom; left] in
  (exists q, f (topLeft b) = Some q /\ q =p= tl) /\
  (exists q, f (topRight b) = Some q /\ q =p= tr) /\
  (exists q, f (bottomRight b) = Some q /\ q =p= br) /\
  (exists q, f (bottomLeft b) = Some q /\ q =p= bl).
Proof.
  intros b Hw Hh [Ht0 Ht1] [Hb0 Hb1] f. subst f.
  assert (Hzero : forall len,
            ((rect_x b - rect_x b) / rect_width b * len == 0)%Q)
    by (intros len; field; exact Hw).
  assert (Hone : forall len,
            ((rect_x b + rect_width b - rect_x b) / rect_width b * len
             == len)%Q)
    by (intros len; field; exact Hw).
  assert (Hv0 : ((rect_y b - rect_y b) / rect_height b == 0)%Q)
    by (field; exact Hh).
  assert (Hv1 : ((rect_y b + rect_height b - rect_y b) / rect_height b == 1)%Q)
    by (field; exact Hh).
  repeat split; rewrite arrangeTransform_unit; fold b;
    match goal with
    | |- exists q, PaperHelpers.sandwichPathProjection ?tc ?bc ?u = Some q /\ _ =>
        set (unit := u); set (topC := tc); set (bottomC := bc)
    end.
  - destruct (sandwich_at topC bottomC unit tl bl) as (q & Hq & H0 & _);
      [apply Ht0; exact (Hzero _)|apply Hb0; exact (Hzero _)|].
    exists q. split; [exact Hq|]. apply H0. exact Hv0.
  - destruct (sandwich_at topC bottomC unit tr br) as (q & Hq & H0 & _);
      [apply Ht1; exact (Hone _)|apply Hb1; exact (Hone _)|].
    exists q. split; [exact Hq|]. apply H0. exact Hv0.
  - destruct (sandwich_at topC bottomC unit tr br) as (q & Hq & _ & H1 & _);
      [apply Ht1; exact (Hone _)|apply Hb1; exact (Hone _)|].
    exists q. split; [exact Hq|]. apply H1. exact Hv1.
  - destruct (sandwich_at topC bottomC unit tl bl) as (q & Hq & _ & H1 & _);
      [apply Ht0; exact (Hzero _)|apply Hb0; exact (Hzero _)|].
    exists q. split; [exact Hq|]. apply H1. exact Hv1.
Qed.

End PointMapping.

(** A path of two anchors, as [polylineCurve] samples it. *)
Lemma edgeLength_nonneg (a b : Point) : (0 <= edgeLength a b)%Q.
Proof.
  unfold edgeLength.
  pose proof (Qabs_nonneg (px b - px a)). pose proof (Qabs_nonneg (py b - py a)).
  lra.
Qed.

Lemma edgeLength_zero (a b : Point) : (edgeLength a b == 0)%Q -> a =p= b.
Proof.
  unfold edgeLength. intros H.
  pose proof (Qabs_nonneg (px b - px a)) as H1.
  pose proof (Qabs_nonneg (py b - py a)) as H2.
  pose proof (Qle_Qabs (px b - px a)) as H3.
  pose proof (Qle_Qabs (py b - py a)) as H4.
  pose proof (Qle_Qabs (- (px b - px a))) as H5.
  pose proof (Qle_Qabs (- (py b - py a))) as H6.
  rewrite Qabs_opp in H5, H6.
  split; lra.
Qed.

Lemma polylineCurve_two_anchors (segs : list Segment) (a b : Point) (d : Q) :
  map point segs = [a; b] ->
  (0 <= d)%Q -> (d <= edgeLength a b)%Q ->
  (curve_length (polylineCurve segs) == edgeLength a b)%Q /\
  getPointAt (polylineCurve segs) d
  = Some (PaperHelpers.lerp a b (d / edgeLength a b)%Q).
Proof.
  intros Hp H0 H1. unfold polylineCurve. cbn [curve_length getPointAt].
  rewrite Hp. cbn [polylineLength polylinePointAt].
  apply Qle_bool_iff in H0, H1. rewrite H0, H1.
  split; [ring|reflexivity].
Qed.

Lemma polylineCurve_pinsEnds (segs : list Segment) (a b : Point) :
  map point segs = [a; b] -> pinsEnds (polylineCurve segs) a b.
Proof.
  intros Hp. pose proof (edgeLength_nonneg a b) as He. split; intros d Hd.
  - destruct (polylineCurve_two_anchors segs a b d Hp) as (_ & ->); try lra.
    eexists; split; [reflexivity|].
    apply lerp_at_0. rewrite Hd. unfold Qdiv. ring.
  - assert (Hlen : (curve_length (polylineCurve segs) == edgeLength a b)%Q).
    { unfold polylineCurve. cbn [curve_length]. rewrite Hp. cbn. ring. }
    rewrite Hlen in Hd.
    destruct (polylineCurve_two_anchors segs a b d Hp) as (_ & ->); try lra.
    eexists; split; [reflexivity|].
    destruct (Qeq_dec (edgeLength a b) 0) as [Hz|Hnz].
    + apply (point_eq_trans _ a); [|now apply edgeLength_zero].
      apply lerp_at_0. rewrite Hd, Hz. reflexivity.
    + apply lerp_at_1. rewrite Hd. now field.
Qed.

Lemma polylineCurve_straight (segs : list Segment) (a b : Point) (len : Q) :
  map point segs = [a; b] ->
  py b = py a ->
  (0 < len)%Q -> (px b - px a == len)%Q ->
  samplesStraight (polylineCurve segs) a len.
Proof.
  intros Hp Hy Hpos Hlen.
  assert (He : (edgeLength a b == len)%Q).
  { unfold edgeLength. rewrite Hy.
    setoid_replace (py a - py a)%Q with 0%Q by ring.
    rewrite Hlen, (Qabs_pos len) by lra. cbn. ring. }
  split.
  - unfold polylineCurve. cbn [curve_length]. rewrite Hp. cbn. rewrite He. ring.
  - intros d H0 H1.
    destruct (polylineCurve_two_anchors segs a b d Hp) as (_ & ->); try lra.
    eexists; split; [reflexivity|].
    split; cbn; rewrite ?Hy, He.
    + rewrite Hlen. field. lra.
    + ring.
Qed.

Lemma bounds_corners_go_to_side_ends_witness :
  let f := @arrangeTransform polylineEngine draggedStretchy
             [[0; 1]; [1; 2]; [2; 3]; [3; 0]] in
  (exists q, f (mkPoint 0 0) = Some q /\ q =p= mkPoint 0 0) /\
  (exists q, f (mkPoint (0 + 10) 0) = Some q /\ q =p= mkPoint 10 0) /\
  (exists q, f (mkPoint (0 + 10) (0 + 10)) = Some q /\ q =p= mkPoint 20 10) /\
  (exists q, f (mkPoint 0 (0 + 10)) = Some q /\ q =p= mkPoint 0 10).
Proof.
  apply (@bounds_corners_go_to_side_ends polylineEngine draggedStretchy
           [0; 1] [1; 2] [2; 3] [3; 0]
           (mkPoint 0 0) (mkPoint 10 0) (mkPoint 20 10) (mkPoint 0 10)).
  - vm_compute; discriminate.
  - vm_compute; discriminate.
  - apply polylineCurve_pinsEnds. vm_compute; reflexivity.
  - apply polylineCurve_pinsEnds. vm_compute; reflexivity.
Defined.

Section UneditedFrame.

Context {E : Engine}.

(** X10.  On the frame as the constructor makes it - the rectangle of the
    source bounds, with positive width and non-zero height, its top and
    bottom edges sampled as straight lines - the decomposition returns the
    four edges and the point mapping of [arrangePath] sends every point
    whose x lies within the bounds to itself: artwork on an unedited frame
    is displayed where it is.  (The projection is the sandwich projection
    as the specification describes it.) *)
Theorem unedited_frame_maps_points_to_themselves (src : CompoundPath) :
  let s := fst (construct src) in
  let b := bounds src in
  let sides := [[0; 1]; [1; 2]; [2; 3]; [3; 0]] in
  (0 < rect_width b)%Q ->
  ~ (rect_height b == 0)%Q ->
  forallb (fun p => isClose p p) (PaperHelpers.corners b) = true ->
  isClose (topRight b) (topLeft b) = false ->
  samplesStraight
    (pathCurve [mkSegment (topLeft b) origin origin;
                mkSegment (topRight b) origin origin])
    (topLeft b) (rect_width b) ->
  samplesStraight
    (pathCurve [mkSegment (bottomLeft b) origin origin;
                mkSegment (bottomRight b) origin origin])
    (bottomLeft b) (rect_width b) ->
  getOutlineSides s = Normal sides /\
  forall p, (rect_x b <= px p)%Q -> (px p <= rect_x b + rect_width b)%Q ->
            exists q, arrangeTransform s sides p = Some q /\ q =p= p.
Proof.
  intros s b sides Hw Hh Hself Hfar [Htl Ht] [Hbl Hb]. subst sides.
  set (s1 := updateMidpiontMarkers
               (createSegmentMarkers (createOutline (blank src)))).
  destruct (arrangeContents_fields s1) as (F1 & F2 & F3 & F4 & _).
  fold (construct src) in F1, F2, F3, F4. fold s in F1, F2, F3, F4.
  split.
  - rewrite (getOutlineSides_frame s s1) by assumption.
    apply (getOutlineSides_runs s1 0 1 2 3 [] [] [] []); try reflexivity.
    + cbn in Hself |- *. exact Hself.
    + cbn. fold b. now rewrite Hfar.
  - intros p Hx0 Hx1.
    rewrite (arrangeTransform_frame s s1) by assumption.
    rewrite arrangeTransform_unit.
    change (bounds (sourcePath s1)) with b.
    change (pathCurve (sidePath (store s1) [0; 1]))
      with (pathCurve [mkSegment (topLeft b) origin origin;
                       mkSegment (topRight b) origin origin]).
    change (pathCurve (Path_reverse (sidePath (store s1) [2; 3])))
      with (pathCurve [mkSegment (bottomLeft b) origin origin;
                       mkSegment (bottomRight b) origin origin]).
    set (topC := pathCurve [mkSegment (topLeft b) origin origin;
                            mkSegment (topRight b) origin origin]) in *.
    set (bottomC := pathCurve [mkSegment (bottomLeft b) origin origin;
                               mkSegment (bottomRight b) origin origin]) in *.
    set (u := ((px p - rect_x b) / rect_width b)%Q).
    set (v := ((py p - rect_y b) / rect_height b)%Q).
    assert (Hu : forall len, (len == rect_width b)%Q ->
                   (u * len == px p - rect_x b)%Q).
    { intros len Hlen. unfold u. rewrite Hlen. field. lra. }
    assert (Hd : forall len, (len == rect_width b)%Q ->
                   (0 <= u * len)%Q /\ (u * len <= rect_width b)%Q).
    { intros len Hlen. rewrite (Hu len Hlen). lra. }
    destruct (Hd _ Htl) as (Ht0 & Ht1). destruct (Hd _ Hbl) as (Hb0 & Hb1).
    destruct (sandwich_at topC bottomC (mkPoint u v)
                (mkPoint (px (topLeft b) + u * curve_length topC)%Q
                         (py (topLeft b)))
                (mkPoint (px (bottomLeft b) + u * curve_length bottomC)%Q
                         (py (bottomLeft b))))
      as (q & Hq & _ & _ & Hqx & Hqy).
    + apply Ht; assumption.
    + apply Hb; assumption.
    + exists q. split; [exact Hq|]. split.
      * rewrite Hqx.
        -- cbn. rewrite (Hu _ Htl). ring.
        -- cbn. rewrite (Hu _ Htl), (Hu _ Hbl). reflexivity.
      * rewrite Hqy. cbn. unfold v. field. exact Hh.
Qed.

End UneditedFrame.

Lemma unedited_frame_maps_points_to_themselves_witness :
  @getOutlineSides polylineEngine squareStretchy
    = Normal [[0; 1]; [1; 2]; [2; 3]; [3; 0]] /\
  exists q, @arrangeTransform polylineEngine squareStretchy
              [[0; 1]; [1; 2]; [2; 3]; [3; 0]] (mkPoint 3 7) = Some q /\
            q =p= mkPoint 3 7.
Proof.
  destruct (@unedited_frame_maps_points_to_themselves polylineEngine squareArt)
    as (Hsides & Hmap).
  - reflexivity.
  - vm_compute; discriminate.
  - vm_compute; reflexivity.
  - vm_compute; reflexivity.
  - eapply polylineCurve_straight;
      [reflexivity|reflexivity|reflexivity|vm_compute; reflexivity].
  - eapply polylineCurve_straight;
      [reflexivity|reflexivity|reflexivity|vm_compute; reflexivity].
  - split; [exact Hsides|].
    apply (Hmap (mkPoint 3 7)); vm_compute; discriminate.
Defined.

(* ================================================================== *)
(** * The Store: selection, editing item and text blocks *)
(* ================================================================== *)

Module StoreFacts.

Import String.
Import Store.

Lemma setSelection_cases (st : AppState) (item : option ObjectRef) :
  (setSelection st item = (st, []) /\ refersTo (selection st) item) \/
  (setSelection st item
   = (mkAppState item (editingItem st) (textBlocks st), [SelectionChanged item])
   /\ ~ refersTo (selection st) item).
Proof.
  unfold setSelection, refersTo.
  destruct item as [it|], (selection st) as [current|]; auto.
  destruct (String.eqb_spec (itemId current) (itemId it)); auto.
Qed.

Lemma refersTo_refl (item : option ObjectRef) : refersTo item item.
Proof. destruct item; cbn; auto. Qed.

(** X11.  [setSelection] stores the item asked for and dispatches
    [selectionChanged] exactly when the stored selection did not already
    name it (same [itemId], or both none); it touches nothing else, and
    asking again for the same item neither changes nor dispatches
    anything. *)
Theorem setSelection_settles (st : AppState) (item : option ObjectRef) :
  let st' := fst (setSelection st item) in
  let events := snd (setSelection st item) in
  refersTo (selection st') item /\
  editingItem st' = editingItem st /\
  textBlocks st' = textBlocks st /\
  (refersTo (selection st) item -> st' = st /\ events = []) /\
  (~ refersTo (selection st) item ->
   selection st' = item /\ events = [SelectionChanged item]) /\
  setSelection st' item = (st', []).
Proof.
  cbv zeta.
  destruct (setSelection_cases st item) as [(-> & Hr)|(-> & Hn)]; cbn [fst snd].
  - repeat split; auto; try contradiction.
    destruct (setSelection_cases st item) as [(H & _)|(_ & Hn)];
      [exact H|contradiction].
  - assert (Hr : refersTo
                   (selection (mkAppState item (editingItem st) (textBlocks st)))
                   item) by apply refersTo_refl.
    repeat split; auto; try contradiction.
    match goal with
    | |- setSelection ?s _ = _ =>
        destruct (setSelection_cases s item) as [(H & _)|(_ & Hn')];
          [exact H|contradiction]
    end.
Qed.

Lemma setEditingItem_early (st : AppState) (item : option ObjectRef) :
  refersTo (editingItem st) item -> setEditingItem st item = (st, []).
Proof.
  unfold setEditingItem, refersTo.
  destruct item as [it|], (editingItem st) as [current|]; try tauto.
  intros ->. now rewrite String.eqb_refl.
Qed.

Lemma setEditingItem_proceeds (st : AppState) (item : option ObjectRef) :
  ~ refersTo (editingItem st) item ->
  exists closed,
    setEditingItem st item
    = (mkAppState
         (match item with
          | Some _ => selection (fst (setSelection st item))
          | None => selection st
          end)
         item (textBlocks st),
       closed
         ++ match item with
            | Some _ => snd (setSelection st item)
            | None => []
            end
         ++ [EditingItemChanged item]) /\
    (forall b, List.In (EditorClosed b) closed ->
               getBlock st (_id b) <> None /\
               exists current, editingItem st = Some current /\
                               getBlock st (itemId current) = Some b) /\
    (forall e, List.In e closed -> exists b, e = EditorClosed b).
Proof.
  intros Hn. unfold setEditingItem.
  set (closed := match editingItem st with
                 | Some current =>
                     match itemType current with
                     | Some type =>
                         if String.eqb type "TextBlock"
                         then match getBlock st (itemId current) with
                              | Some b => [EditorClosed b]
                              | None => []
                              end
                         else []
                     | None => []
                     end
                 | None => []
                 end).
  assert (Hclosed :
            (forall b, List.In (EditorClosed b) closed ->
                       getBlock st (_id b) <> None /\
                       exists current, editingItem st = Some current /\
                                       getBlock st (itemId current) = Some b) /\
            (forall e, List.In e closed -> exists b, e = EditorClosed b)).
  { subst closed. destruct (editingItem st) as [current|]; [|split; intros ? []].
    destruct (itemType current) as [type|]; [|split; intros ? []].
    destruct (String.eqb type "TextBlock"); [|split; intros ? []].
    destruct (getBlock st (itemId current)) as [b0|] eqn:Hb; [|split; intros ? []].
    split.
    - intros b [Hb'|[]]. injection Hb' as <-. split; [|eauto].
      unfold getBlock in Hb |- *.
      pose proof (List.find_some _ _ Hb) as (Hin & Hid).
      apply String.eqb_eq in Hid.
      destruct (List.find (fun tb => String.eqb (_id tb) (_id b0)) (textBlocks st))
        eqn:Hf; [discriminate|].
      apply (List.find_none _ _ Hf) in Hin. now rewrite String.eqb_refl in Hin.
    - intros e [<-|[]]. eauto. }
  exists closed. split; [|exact Hclosed].
  unfold refersTo in Hn.
  destruct item as [it|].
  - destruct (setSelection_cases st (Some it)) as [(Hs & _)|(Hs & _)];
      rewrite Hs; cbn [fst snd];
      destruct (editingItem st) as [current|]; try reflexivity;
      destruct (String.eqb_spec (itemId current) (itemId it));
      try contradiction; reflexivity.
  - destruct (editingItem st) as [current|]; [reflexivity|contradiction].
Qed.

(** X12.  [setEditingItem] stores the item asked for as editing item;
    when the editing item did not already name it, the call ends by
    dispatching [editingItemChanged], a newly set item is also the
    selection afterwards, and [editorClosed] goes out only for a text block
    that is still in the sketch.  Asking again for the same item neither
    changes nor dispatches anything, and the text blocks stay as they
    are. *)
Theorem setEditingItem_settles (st : AppState) (item : option ObjectRef) :
  let st' := fst (setEditingItem st item) in
  let events := snd (setEditingItem st item) in
  refersTo (editingItem st') item /\
  textBlocks st' = textBlocks st /\
  (refersTo (editingItem st) item -> st' = st /\ events = []) /\
  (~ refersTo (editingItem st) item ->
   editingItem st' = item /\
   (item <> None -> refersTo (selection st') item) /\
   (exists before, events = before ++ [EditingItemChanged item]) /\
   (forall b, List.In (EditorClosed b) events -> getBlock st (_id b) <> None)) /\
  setEditingItem st' item = (st', []).
Proof.
  cbv zeta.
  assert (Hdec : refersTo (editingItem st) item \/ ~ refersTo (editingItem st) item).
  { unfold refersTo. destruct (editingItem st) as [a|], item as [b|]; auto.
    destruct (String.string_dec (itemId a) (itemId b)); auto. }
  destruct Hdec as [Hr|Hn].
  - rewrite (setEditingItem_early st item Hr). cbn [fst snd].
    repeat split; auto; try contradiction.
    now apply setEditingItem_early.
  - destruct (setEditingItem_proceeds st item Hn) as (closed & -> & Hc & Hkind).
    cbn [fst snd editingItem textBlocks selection].
    split; [apply refersTo_refl|]. split; [reflexivity|].
    split; [contradiction|]. split.
    + intros _. split; [reflexivity|]. split; [|split].
      * intros Hsome. destruct item as [it|]; [|contradiction].
        apply (setSelection_settles st (Some it)).
      * exists (closed ++ match item with
                          | Some _ => snd (setSelection st item)
                          | None => []
                          end).
        now rewrite <- List.app_assoc.
      * intros b Hin. apply List.in_app_or in Hin as [Hin|Hin];
          [now apply Hc|].
        exfalso. apply List.in_app_or in Hin as [Hin|[Hin|[]]];
          [|discriminate].
        destruct item as [it|]; [|destruct Hin].
        destruct (setSelection_cases st (Some it)) as [(Hs & _)|(Hs & _)];
          rewrite Hs in Hin; cbn in Hin; intuition discriminate.
    + apply setEditingItem_early. apply refersTo_refl.
Qed.


Lemma find_after_remove (id other : string) (l : list TextBlock) :
  other <> id ->
  List.find (fun tb => String.eqb (_id tb) other)
    (List.filter (fun tb => negb (String.eqb (_id tb) id)) l)
  = List.find (fun tb => String.eqb (_id tb) other) l.
Proof.
  intros Hne. induction l as [|tb l IH]; [reflexivity|].
  cbn. destruct (String.eqb_spec (_id tb) id) as [Heq|Hneq]; cbn.
  - destruct (String.eqb_spec (_id tb) other); [congruence|]. exact IH.
  - destruct (String.eqb (_id tb) other); [reflexivity|exact IH].
Qed.

(** X14.  Removing a text block by an id no block has changes nothing and
    dispatches nothing.  Otherwise every block with that id is gone and the
    other blocks stay in their order, a lookup of the id finds nothing, no
    item is being edited any more, the events start with [removed] and
    [contentChanged], and no [editorClosed] goes out for the removed
    block. *)
Theorem onTextBlockRemove_removes (st : AppState) (id : string) :
  let st' := fst (onTextBlockRemove st id) in
  let events := snd (onTextBlockRemove st id) in
  (getBlock st id = None -> st' = st /\ events = []) /\
  (getBlock st id <> None ->
   textBlocks st'
   = List.filter (fun tb => negb (String.eqb (_id tb) id)) (textBlocks st) /\
   getBlock st' id = None /\
   (forall other, other <> id -> getBlock st' other = getBlock st other) /\
   editingItem st' = None /\
   (exists rest, events = TextBlockRemoved id :: ContentChanged :: rest) /\
   (forall b, List.In (EditorClosed b) events -> _id b <> id)).
Proof.
  cbv zeta. unfold onTextBlockRemove.
  set (kept := List.filter (fun tb => negb (String.eqb (_id tb) id)) (textBlocks st)).
  set (st1 := mkAppState (selection st) (editingItem st) kept).
  assert (Hgone : getBlock st1 id = None).
  { unfold getBlock. cbn. subst kept.
    destruct (List.find _ _) as [b|] eqn:Hf; [|reflexivity].
    apply List.find_some in Hf as (Hin & Hid).
    apply List.filter_In in Hin as (_ & Hneg). now rewrite Hid in Hneg. }
  assert (Hother : forall other, other <> id ->
                     getBlock st1 other = getBlock st other).
  { intros other Hne. unfold getBlock. cbn. subst kept.
    now apply find_after_remove. }
  destruct (List.existsb (fun tb => String.eqb (_id tb) id) (textBlocks st))
    eqn:Hex.
  - split.
    + intros Hnone. exfalso.
      apply List.existsb_exists in Hex as (b & Hin & Hid).
      unfold getBlock in Hnone.
      apply (List.find_none _ _ Hnone) in Hin. congruence.
    + intros _.
      pose proof (setEditingItem_settles st1 None) as T. cbv zeta in T.
      destruct (setEditingItem st1 None) as [st2 e2] eqn:H2.
      cbn [fst snd] in T |- *.
      destruct T as (T1 & T2 & T3 & T4 & _).
      assert (Hblocks : textBlocks st2 = kept) by exact T2.
      assert (Hlook : forall x, getBlock st2 x = getBlock st1 x)
        by (intros x; unfold getBlock; now rewrite T2).
      split; [exact Hblocks|]. split; [now rewrite Hlook|].
      split; [intros other Hne; rewrite Hlook; now apply Hother|].
      split; [unfold refersTo in T1; now destruct (editingItem st2)|].
      cbn [List.app].
      split; [eauto|].
      intros b Hin. cbn [List.In] in Hin.
      destruct Hin as [Hb|[Hb|Hin]]; try discriminate.
      intros Hid.
      assert (Hdec : refersTo (editingItem st1) None
                     \/ ~ refersTo (editingItem st1) None).
      { unfold refersTo. destruct (editingItem st1); auto. }
      destruct Hdec as [Hr|Hn].
      * destruct (T3 Hr) as (_ & ->). destruct Hin.
      * destruct (T4 Hn) as (_ & _ & _ & Hclosed).
        apply Hclosed in Hin. rewrite Hid in Hin. contradiction.
  - assert (Hkept : kept = textBlocks st).
    { subst kept. apply filter_all. intros tb Hin.
      apply negb_true_iff.
      destruct (String.eqb (_id tb) id) eqn:Hid; [|reflexivity].
      assert (List.existsb (fun tb => String.eqb (_id tb) id) (textBlocks st) = true)
        by (apply List.existsb_exists; eauto).
      congruence. }
    cbn [fst snd]. split.
    + intros _. subst st1. rewrite Hkept. now destruct st.
    + intros Hsome. exfalso. apply Hsome.
      unfold getBlock.
      destruct (List.find _ _) as [b|] eqn:Hf; [|reflexivity].
      apply List.find_some in Hf as (Hin & Hid).
      assert (List.existsb (fun tb => String.eqb (_id tb) id) (textBlocks st) = true)
        by (apply List.existsb_exists; eauto).
      congruence.
Qed.

(** Removing the block that is being edited: the editor state is cleared
    without an [editorClosed] event. *)
Example remove_edited_block :
  onTextBlockRemove editingState "b"
  = (mkAppState (Some (textBlockRef "b")) None [block "a"; block "c"],
     [TextBlockRemoved "b"; ContentChanged; EditingItemChanged None])%string.
Proof. reflexivity. Qed.

End StoreFacts.

(* ================================================================== *)
(** * Typed channels *)
(* ================================================================== *)

Module TypedChannelFacts.

Import String.
Import TypedChannel.

Lemma append_inj_l (p a b : string) : (p ++ a = p ++ b)%string -> a = b.
Proof.
  induction p as [|c p IH]; cbn; intros H; [exact H|].
  injection H as H. now apply IH.
Qed.

Lemma topic_type_inj (c : Channel) (a b : string) :
  topicType (topic c a) = topicType (topic c b) -> a = b.
Proof.
  unfold topic. cbn [topicType].
  destruct (channelType c) as [t|]; [|auto].
  destruct (truthy (Some t)); [|auto].
  intros H. apply append_inj_l in H. now injection H.
Qed.

Lemma delivered_dispatch {TData : Type} (s : Subject) (t : ChannelTopic)
    (d : option TData) (sent : Sent TData) :
  delivered s (dispatch t d sent)
  = delivered s sent
      ++ (if Nat.eqb (channel t) s then [mkMessage (topicType t) d] else []).
Proof.
  unfold delivered, dispatch.
  rewrite List.filter_app, List.map_app. cbn.
  now destruct (Nat.eqb (channel t) s).
Qed.

(** X15.  Within one channel, topics are kept apart by their names: two
    topics made by [topic] have the same type only if they were made with
    the same name, so a message dispatched on one topic of a channel is
    delivered by [observe()] of another topic of that channel exactly when
    the names are equal - with its data, as the last delivery - and not at
    all to a topic on another subject. *)
Theorem dispatch_reaches_topic_of_same_name {TData : Type} :
  (forall (c : Channel) (a b : string),
     topicType (topic c a) = topicType (topic c b) -> a = b) /\
  (forall (c : Channel) (a b : string) (d : option TData) (sent : Sent TData),
     observe (topic c b) (dispatch (topic c a) d sent)
     = observe (topic c b) sent
         ++ (if String.eqb a b
             then [mkMessage (topicType (topic c a)) d] else [])) /\
  (forall (t t' : ChannelTopic) (d : option TData) (sent : Sent TData),
     channel t <> channel t' ->
     observe t' (dispatch t d sent) = observe t' sent).
Proof.
  split; [exact topic_type_inj|]. split.
  - intros c a b d sent. unfold observe.
    rewrite delivered_dispatch.
    change (channel (topic c a)) with (subject c).
    change (channel (topic c b)) with (subject c).
    rewrite Nat.eqb_refl, List.filter_app. f_equal.
    cbn [List.filter type].
    destruct (String.eqb_spec (topicType (topic c a)) (topicType (topic c b)))
      as [Heq|Hneq].
    + apply topic_type_inj in Heq. subst b. now rewrite String.eqb_refl.
    + destruct (String.eqb_spec a b) as [->|_]; [contradiction|reflexivity].
  - intros t t' d sent Hne. unfold observe.
    rewrite delivered_dispatch.
    apply Nat.eqb_neq in Hne. rewrite Hne. now rewrite List.app_nil_r.
Qed.

(** X16.  [merge(...topics)] delivers a message exactly when [observe()]
    of one of the topics does, for topics on the channel's own subject; and
    it filters the channel's own subject by the types of the topics even
    when they belong to another subject. *)
Theorem merge_is_union_of_topics {TData : Type} (c : Channel)
    (topics : list ChannelTopic) (sent : Sent TData) (m : Message TData) :
  (List.In m (merge c topics sent) <->
   List.In m (delivered (subject c) sent) /\
   exists t, List.In t topics /\ type m = topicType t) /\
  ((forall t, List.In t topics -> channel t = subject c) ->
   (List.In m (merge c topics sent) <->
    exists t, List.In t topics /\ List.In m (observe t sent))).
Proof.
  assert (Hm : List.In m (merge c topics sent) <->
               List.In m (delivered (subject c) sent) /\
               exists t, List.In t topics /\ type m = topicType t).
  { unfold merge. rewrite List.filter_In, List.existsb_exists.
    split; intros (Hin & Hex); (split; [exact Hin|]).
    - destruct Hex as (ty & Hty & Heq). apply String.eqb_eq in Heq.
      apply List.in_map_iff in Hty as (t & <- & Ht). eauto.
    - destruct Hex as (t & Ht & Heq). exists (topicType t).
      split; [now apply List.in_map|now apply String.eqb_eq]. }
  split; [exact Hm|].
  intros Hown. rewrite Hm. unfold observe. split.
  - intros (Hin & t & Ht & Heq). exists t. split; [exact Ht|].
    apply List.filter_In. rewrite (Hown t Ht).
    split; [exact Hin|now apply String.eqb_eq].
  - intros (t & Ht & Hin). apply List.filter_In in Hin as (Hin & Heq).
    rewrite (Hown t Ht) in Hin. apply String.eqb_eq in Heq. eauto.
Qed.

End TypedChannelFacts.
